(** * Pet simulation and ball-interaction engine of Notepad-with-Pets

    Shallow embedding of [src/pets/ball.py], [src/pets/pet.py] and of the
    coordinator part of [src/notepad_app.py] ([_throw_ball_at], [_animate],
    and the handlers that add and remove pets, resize and close), followed
    by two parts of the editor in the same file: the numbering of list
    items ([_to_roman], [_roman_to_int], [_get_numbered_prefix]) and the
    undo and redo history.

    Numbers.  Positions, velocities and canvas bounds are Python floats (or
    integers mixed with floats); they are modelled by the real numbers [R],
    so [math.sqrt] is [sqrt], [abs] is [Rabs], and [max]/[min] of two numbers
    are [Rmax]/[Rmin].  Timers and durations are Python integers ([dt] is the
    integer 50, durations come from [random.randint]); they are modelled by
    [Z].  Ball identifiers are Python integers, modelled by [Z].

    The comparisons of the code are the decidable comparisons of [R]
    ([Rlt_dec] and the like); on concrete inputs they are settled by linear
    arithmetic rather than by evaluation.

    Randomness.  The code draws from the ambient [random] module.  Every
    function that draws takes the value returned by the library call as an
    extra argument; the library's contract (for instance [a <= N <= b] for
    [random.uniform a b]) is stated as a hypothesis where a property needs
    it.

    Rendering.  Sprites ([AnimatedGIF]) and [Pet.draw] are not modelled; of
    the sprite table only the presence of the swipe sprite is kept, because
    [_update_idle] branches on it.  The ball canvas is modelled as far as
    [Ball] uses it: its width and the identifiers of the items drawn on it. *)

From Stdlib Require Import Reals Lra ZArith List Bool Lia.
From Stdlib Require Import Ascii.
Import ListNotations.

Open Scope R_scope.

(** ** The canvas as the simulation sees it *)

Record canvas := mk_canvas {
  winfo_width : option R;   (* [None]: the call raises (caught by the callers) *)
  items : list Z;           (* canvas item ids currently drawn *)
  next_item : Z             (* id the next [create_oval] returns *)
}.

Definition canvas_delete (i : Z) (cv : canvas) : canvas :=
  {| winfo_width := winfo_width cv;
     items := remove Z.eq_dec i (items cv);
     next_item := next_item cv |}.

Definition canvas_create_oval (cv : canvas) : Z * canvas :=
  (next_item cv,
   {| winfo_width := winfo_width cv;
      items := items cv ++ [next_item cv];
      next_item := (next_item cv + 1)%Z |}).

(** [canvas.delete("ball")]: every item the model tracks carries that tag. *)
Definition canvas_delete_tag_ball (cv : canvas) : canvas :=
  {| winfo_width := winfo_width cv; items := []; next_item := next_item cv |}.

(** Python truth value of an optional canvas item id ([None] and 0 are false). *)
Definition truthy (i : option Z) : bool :=
  match i with
  | Some n => negb (n =? 0)%Z
  | None => false
  end.

(** ** Ball ([src/pets/ball.py]) *)

Module Ball.

Record ball := mk_ball {
  x : R;
  y : R;
  vx : R;
  vy : R;
  visible : bool;
  ball_id : option Z;
  unique_id : Z;
  ground_y : R;
  gravity : R;
  bounce : R;
  friction : R;
  radius : R
}.

(** [Ball.__init__]: takes the class counter [_id_counter] and returns the new
    ball with the incremented counter. *)
Definition __init__ (_id_counter : Z) : ball * Z :=
  ({| x := -100; y := -100; vx := 0; vy := 0;
      visible := false;
      ball_id := None;
      unique_id := _id_counter;
      ground_y := 0;
      gravity := 0.8; bounce := 0.6; friction := 0.95; radius := 5 |},
   (_id_counter + 1)%Z).

(** The local [canvas_width] of [throw]: the canvas width, or 800 when the
    call raises or returns less than 50. *)
Definition throw_canvas_width (cv : canvas) : R :=
  match winfo_width cv with
  | Some w => if Rlt_dec w 50 then 800 else w
  | None => 800
  end.

(** [throw x0 y0 gy]; [u] is the value [random.uniform(-3, 3)] returns. *)
Definition throw (cv : canvas) (x0 y0 gy u : R) (b : ball) : ball :=
  let canvas_width := throw_canvas_width cv in
  {| x := Rmax (radius b + 5) (Rmin x0 (canvas_width - radius b - 5));
     y := Rmax (radius b + 5) (Rmin y0 (gy - radius b - 5));
     vx := u;
     vy := -8;
     visible := true;
     ball_id := ball_id b;
     unique_id := unique_id b;
     ground_y := gy;
     gravity := gravity b; bounce := bounce b; friction := friction b;
     radius := radius b |}.

Definition set_pos_vel (x' y' vx' vy' : R) (b : ball) : ball :=
  {| x := x'; y := y'; vx := vx'; vy := vy';
     visible := visible b; ball_id := ball_id b; unique_id := unique_id b;
     ground_y := ground_y b;
     gravity := gravity b; bounce := bounce b; friction := friction b;
     radius := radius b |}.

(** "Apply gravity" and "Apply velocity". *)
Definition integrate (b : ball) : ball :=
  let vy1 := vy b + gravity b in
  set_pos_vel (x b + vx b) (y b + vy1) (vx b) vy1 b.

(** "Bounce off walls": skipped when the width is unknown or not above 50. *)
Definition bounce_walls (cv : canvas) (b : ball) : ball :=
  match winfo_width cv with
  | Some canvas_width =>
      if Rgt_dec canvas_width 50 then
        if Rle_dec (x b) (radius b) then
          set_pos_vel (radius b) (y b) (Rabs (vx b) * 0.8) (vy b) b
        else if Rge_dec (x b) (canvas_width - radius b) then
          set_pos_vel (canvas_width - radius b) (y b) (- Rabs (vx b) * 0.8) (vy b) b
        else b
      else b
  | None => b
  end.

(** "Bounce off ground", with "Stop if very slow". *)
Definition bounce_ground (b : ball) : ball :=
  if Rge_dec (y b) (ground_y b - radius b) then
    let vy1 := vy b * - bounce b in
    set_pos_vel (x b) (ground_y b - radius b) (vx b * friction b)
                (if Rlt_dec (Rabs vy1) 1 then 0 else vy1) b
  else b.

Definition update (cv : canvas) (b : ball) : ball :=
  if negb (visible b) then b
  else bounce_ground (bounce_walls cv (integrate b)).

Definition set_visible (v : bool) (b : ball) : ball :=
  {| x := x b; y := y b; vx := vx b; vy := vy b;
     visible := v; ball_id := ball_id b; unique_id := unique_id b;
     ground_y := ground_y b;
     gravity := gravity b; bounce := bounce b; friction := friction b;
     radius := radius b |}.

Definition set_ball_id (i : option Z) (b : ball) : ball :=
  {| x := x b; y := y b; vx := vx b; vy := vy b;
     visible := visible b; ball_id := i; unique_id := unique_id b;
     ground_y := ground_y b;
     gravity := gravity b; bounce := bounce b; friction := friction b;
     radius := radius b |}.

Definition draw (cv : canvas) (b : ball) : ball * canvas :=
  let cv1 :=
    match ball_id b with
    | Some i => if truthy (ball_id b) then canvas_delete i cv else cv
    | None => cv
    end in
  if visible b then
    let '(i, cv2) := canvas_create_oval cv1 in (set_ball_id (Some i) b, cv2)
  else (b, cv1).

Definition hide (cv : canvas) (b : ball) : ball * canvas :=
  let b1 := set_visible false b in
  match ball_id b1 with
  | Some i =>
      if truthy (ball_id b1) then (set_ball_id None b1, canvas_delete i cv)
      else (b1, cv)
  | None => (b1, cv)
  end.

End Ball.

(** ** Pet ([src/pets/pet.py]) *)

Module Pet.

Inductive pet_state :=
  IDLE | WALK | RUN | WITH_BALL | CLIMB_UP | CLIMB_DOWN | SWIPE.

Definition state_eq_dec (a b : pet_state) : {a = b} + {a <> b}.
Proof. decide equality. Defined.

(** Values of [on_wall] other than [None]: ['left'] and ['right']. *)
Inductive wall := LeftWall | RightWall.

Record pet := mk_pet {
  x : R;
  y : R;
  vx : R;
  vy : R;
  target_x : R;
  target_y : R;
  max_speed : R;
  acceleration : R;
  friction : R;
  direction : Z;
  state : pet_state;
  state_timer : Z;
  state_duration : Z;
  frame_timer : Z;
  frame_interval : Z;
  canvas_width : R;
  canvas_height : R;
  ground_y : R;
  wall_margin : R;
  on_wall : option wall;
  climb_target_y : R;
  has_ball : bool;
  ball_timer : Z;
  target_ball_id : option Z;
  has_swipe : bool
}.

(** Attribute assignments [self.f = v]. *)

Definition set_x (v : R) (p : pet) : pet :=
  mk_pet v (y p) (vx p) (vy p) (target_x p) (target_y p) (max_speed p)
    (acceleration p) (friction p) (direction p) (state p) (state_timer p)
    (state_duration p) (frame_timer p) (frame_interval p) (canvas_width p)
    (canvas_height p) (ground_y p) (wall_margin p) (on_wall p)
    (climb_target_y p) (has_ball p) (ball_timer p) (target_ball_id p)
    (has_swipe p).

Definition set_y (v : R) (p : pet) : pet :=
  mk_pet (x p) v (vx p) (vy p) (target_x p) (target_y p) (max_speed p)
    (acceleration p) (friction p) (direction p) (state p) (state_timer p)
    (state_duration p) (frame_timer p) (frame_interval p) (canvas_width p)
    (canvas_height p) (ground_y p) (wall_margin p) (on_wall p)
    (climb_target_y p) (has_ball p) (ball_timer p) (target_ball_id p)
    (has_swipe p).

Definition set_vx (v : R) (p : pet) : pet :=
  mk_pet (x p) (y p) v (vy p) (target_x p) (target_y p) (max_speed p)
    (acceleration p) (friction p) (direction p) (state p) (state_timer p)
    (state_duration p) (frame_timer p) (frame_interval p) (canvas_width p)
    (canvas_height p) (ground_y p) (wall_margin p) (on_wall p)
    (climb_target_y p) (has_ball p) (ball_timer p) (target_ball_id p)
    (has_swipe p).

Definition set_vy (v : R) (p : pet) : pet :=
  mk_pet (x p) (y p) (vx p) v (target_x p) (target_y p) (max_speed p)
    (acceleration p) (friction p) (direction p) (state p) (state_timer p)
    (state_duration p) (frame_timer p) (frame_interval p) (canvas_width p)
    (canvas_height p) (ground_y p) (wall_margin p) (on_wall p)
    (climb_target_y p) (has_ball p) (ball_timer p) (target_ball_id p)
    (has_swipe p).

Definition set_target_x (v : R) (p : pet) : pet :=
  mk_pet (x p) (y p) (vx p) (vy p) v (target_y p) (max_speed p)
    (acceleration p) (friction p) (direction p) (state p) (state_timer p)
    (state_duration p) (frame_timer p) (frame_interval p) (canvas_width p)
    (canvas_height p) (ground_y p) (wall_margin p) (on_wall p)
    (climb_target_y p) (has_ball p) (ball_timer p) (target_ball_id p)
    (has_swipe p).

Definition set_target_y (v : R) (p : pet) : pet :=
  mk_pet (x p) (y p) (vx p) (vy p) (target_x p) v (max_speed p)
    (acceleration p) (friction p) (direction p) (state p) (state_timer p)
    (state_duration p) (frame_timer p) (frame_interval p) (canvas_width p)
    (canvas_height p) (ground_y p) (wall_margin p) (on_wall p)
    (climb_target_y p) (has_ball p) (ball_timer p) (target_ball_id p)
    (has_swipe p).

Definition set_direction (v : Z) (p : pet) : pet :=
  mk_pet (x p) (y p) (vx p) (vy p) (target_x p) (target_y p) (max_speed p)
    (acceleration p) (friction p) v (state p) (state_timer p)
    (state_duration p) (frame_timer p) (frame_interval p) (canvas_width p)
    (canvas_height p) (ground_y p) (wall_margin p) (on_wall p)
    (climb_target_y p) (has_ball p) (ball_timer p) (target_ball_id p)
    (has_swipe p).

Definition set_state (v : pet_state) (p : pet) : pet :=
  mk_pet (x p) (y p) (vx p) (vy p) (target_x p) (target_y p) (max_speed p)
    (acceleration p) (friction p) (direction p) v (state_timer p)
    (state_duration p) (frame_timer p) (frame_interval p) (canvas_width p)
    (canvas_height p) (ground_y p) (wall_margin p) (on_wall p)
    (climb_target_y p) (has_ball p) (ball_timer p) (target_ball_id p)
    (has_swipe p).

Definition set_state_timer (v : Z) (p : pet) : pet :=
  mk_pet (x p) (y p) (vx p) (vy p) (target_x p) (target_y p) (max_speed p)
    (acceleration p) (friction p) (direction p) (state p) v
    (state_duration p) (frame_timer p) (frame_interval p) (canvas_width p)
    (canvas_height p) (ground_y p) (wall_margin p) (on_wall p)
    (climb_target_y p) (has_ball p) (ball_timer p) (target_ball_id p)
    (has_swipe p).

Definition set_state_duration (v : Z) (p : pet) : pet :=
  mk_pet (x p) (y p) (vx p) (vy p) (target_x p) (target_y p) (max_speed p)
    (acceleration p) (friction p) (direction p) (state p) (state_timer p) v
    (frame_timer p) (frame_interval p) (canvas_width p) (canvas_height p)
    (ground_y p) (wall_margin p) (on_wall p) (climb_target_y p) (has_ball p)
    (ball_timer p) (target_ball_id p) (has_swipe p).

Definition set_frame_timer (v : Z) (p : pet) : pet :=
  mk_pet (x p) (y p) (vx p) (vy p) (target_x p) (target_y p) (max_speed p)
    (acceleration p) (friction p) (direction p) (state p) (state_timer p)
    (state_duration p) v (frame_interval p) (canvas_width p)
    (canvas_height p) (ground_y p) (wall_margin p) (on_wall p)
    (climb_target_y p) (has_ball p) (ball_timer p) (target_ball_id p)
    (has_swipe p).

Definition set_canvas_width (v : R) (p : pet) : pet :=
  mk_pet (x p) (y p) (vx p) (vy p) (target_x p) (target_y p) (max_speed p)
    (acceleration p) (friction p) (direction p) (state p) (state_timer p)
    (state_duration p) (frame_timer p) (frame_interval p) v
    (canvas_height p) (ground_y p) (wall_margin p) (on_wall p)
    (climb_target_y p) (has_ball p) (ball_timer p) (target_ball_id p)
    (has_swipe p).

Definition set_canvas_height (v : R) (p : pet) : pet :=
  mk_pet (x p) (y p) (vx p) (vy p) (target_x p) (target_y p) (max_speed p)
    (acceleration p) (friction p) (direction p) (state p) (state_timer p)
    (state_duration p) (frame_timer p) (frame_interval p) (canvas_width p) v
    (ground_y p) (wall_margin p) (on_wall p) (climb_target_y p) (has_ball p)
    (ball_timer p) (target_ball_id p) (has_swipe p).

Definition set_ground_y (v : R) (p : pet) : pet :=
  mk_pet (x p) (y p) (vx p) (vy p) (target_x p) (target_y p) (max_speed p)
    (acceleration p) (friction p) (direction p) (state p) (state_timer p)
    (state_duration p) (frame_timer p) (frame_interval p) (canvas_width p)
    (canvas_height p) v (wall_margin p) (on_wall p) (climb_target_y p)
    (has_ball p) (ball_timer p) (target_ball_id p) (has_swipe p).

Definition set_on_wall (v : option wall) (p : pet) : pet :=
  mk_pet (x p) (y p) (vx p) (vy p) (target_x p) (target_y p) (max_speed p)
    (acceleration p) (friction p) (direction p) (state p) (state_timer p)
    (state_duration p) (frame_timer p) (frame_interval p) (canvas_width p)
    (canvas_height p) (ground_y p) (wall_margin p) v (climb_target_y p)
    (has_ball p) (ball_timer p) (target_ball_id p) (has_swipe p).

Definition set_climb_target_y (v : R) (p : pet) : pet :=
  mk_pet (x p) (y p) (vx p) (vy p) (target_x p) (target_y p) (max_speed p)
    (acceleration p) (friction p) (direction p) (state p) (state_timer p)
    (state_duration p) (frame_timer p) (frame_interval p) (canvas_width p)
    (canvas_height p) (ground_y p) (wall_margin p) (on_wall p) v
    (has_ball p) (ball_timer p) (target_ball_id p) (has_swipe p).

Definition set_has_ball (v : bool) (p : pet) : pet :=
  mk_pet (x p) (y p) (vx p) (vy p) (target_x p) (target_y p) (max_speed p)
    (acceleration p) (friction p) (direction p) (state p) (state_timer p)
    (state_duration p) (frame_timer p) (frame_interval p) (canvas_width p)
    (canvas_height p) (ground_y p) (wall_margin p) (on_wall p)
    (climb_target_y p) v (ball_timer p) (target_ball_id p) (has_swipe p).

Definition set_ball_timer (v : Z) (p : pet) : pet :=
  mk_pet (x p) (y p) (vx p) (vy p) (target_x p) (target_y p) (max_speed p)
    (acceleration p) (friction p) (direction p) (state p) (state_timer p)
    (state_duration p) (frame_timer p) (frame_interval p) (canvas_width p)
    (canvas_height p) (ground_y p) (wall_margin p) (on_wall p)
    (climb_target_y p) (has_ball p) v (target_ball_id p) (has_swipe p).

Definition set_target_ball_id (v : option Z) (p : pet) : pet :=
  mk_pet (x p) (y p) (vx p) (vy p) (target_x p) (target_y p) (max_speed p)
    (acceleration p) (friction p) (direction p) (state p) (state_timer p)
    (state_duration p) (frame_timer p) (frame_interval p) (canvas_width p)
    (canvas_height p) (ground_y p) (wall_margin p) (on_wall p)
    (climb_target_y p) (has_ball p) (ball_timer p) v (has_swipe p).

(** Values returned by the [random] calls one [update] makes: at most one
    [random.random()], one [random.randint] for a coordinate and one
    [random.randint] for a duration. *)
Record draws := mk_draws {
  random_random : R;
  randint_coord : Z;
  randint_duration : Z
}.

(** [random.randint lo hi] raises [ValueError] on an empty range; [v] is the
    value it returns otherwise. *)
Definition randint (lo hi : R) (v : Z) : option Z :=
  if Rle_dec lo hi then Some v else None.

(** Python [int] of a float: truncation toward zero. *)
Definition py_int (r : R) : Z :=
  if Rle_dec 0 r then Int_part r else (- Int_part (- r))%Z.

(** [Pet.__init__], without the sprite loading; [d] is the value of
    [random.randint(1500, 4000)] and [swipe] tells whether the swipe sprite
    file was found by [_load_sprites]. *)
Definition __init__ (swipe : bool) (d : Z) : pet :=
  {| x := 100; y := 0; vx := 0; vy := 0; target_x := 100; target_y := 0;
     max_speed := 12; acceleration := 0.35; friction := 0.88;
     direction := 1;
     state := IDLE; state_timer := 0; state_duration := d;
     frame_timer := 0; frame_interval := 80;
     canvas_width := 800; canvas_height := 600; ground_y := 580;
     wall_margin := 30;
     on_wall := None; climb_target_y := 0;
     has_ball := false; ball_timer := 0; target_ball_id := None;
     has_swipe := swipe |}.

Definition set_bounds (width height ground_y' : R) (p : pet) : pet :=
  set_ground_y ground_y' (set_canvas_height height (set_canvas_width width p)).

(** [_change_state]; the sprite selection is rendering and is left out. *)
Definition _change_state (new_state : pet_state) (p : pet) : pet :=
  set_state_timer 0 (set_state new_state p).

Definition get_distance_to (p : pet) (bx by_ : R) : R :=
  sqrt ((x p - bx) ^ 2 + (y p - by_) ^ 2).

(** Python [min(seq, key=...)]: the first element with the least key. *)
Definition py_min_by {A : Type} (key : A -> R) (first : A) (rest : list A) : A :=
  fold_left (fun best a => if Rlt_dec (key a) (key best) then a else best)
            rest first.

Definition find_nearest_ball (p : pet) (balls : list Ball.ball)
  : option Ball.ball :=
  match balls with
  | [] => None
  | _ :: _ =>
      match filter Ball.visible balls with
      | [] => None
      | b :: visible_balls =>
          Some (py_min_by (fun ball => get_distance_to p (Ball.x ball) (Ball.y ball))
                          b visible_balls)
      end
  end.

Definition chase_ball (ball_x ball_y : R) (p : pet) : pet :=
  let p := match on_wall p with
           | Some _ => _change_state CLIMB_DOWN p
           | None => p
           end in
  let p := set_target_x ball_x p in
  let p := set_target_y ball_y p in
  if state_eq_dec (state p) CLIMB_DOWN then p else _change_state RUN p.

(** The loop of [update] that looks for the ball currently targeted;
    [None] stands for [float('inf')]. *)
Fixpoint current_target_distance (p : pet) (target : Z)
    (balls : list Ball.ball) : option R :=
  match balls with
  | [] => None
  | ball :: rest =>
      if (Ball.unique_id ball =? target)%Z && Ball.visible ball
      then Some (get_distance_to p (Ball.x ball) (Ball.y ball))
      else current_target_distance p target rest
  end.

Definition current_distance (p : pet) (balls : list Ball.ball) : option R :=
  match target_ball_id p with
  | Some target => current_target_distance p target balls
  | None => None
  end.

(** [d < c] where [c] may be [float('inf')]. *)
Definition lt_or_inf (d : R) (c : option R) : bool :=
  match c with
  | Some c => if Rlt_dec d c then true else false
  | None => true
  end.

Definition id_differs (t : option Z) (i : Z) : bool :=
  match t with
  | Some t => negb (t =? i)%Z
  | None => true
  end.

Definition in_states (s : pet_state) (l : list pet_state) : bool :=
  existsb (fun s' => if state_eq_dec s s' then true else false) l.

Definition is_none {A : Type} (o : option A) : bool :=
  match o with None => true | Some _ => false end.

(** Python truth value of a list (the default [None] of [available_balls]
    is modelled by the empty list: both are false). *)
Definition nonempty {A : Type} (l : list A) : bool :=
  match l with [] => false | _ :: _ => true end.

(** Guard of the ball-chase interrupt. *)
Definition chase_guard (available_balls : list Ball.ball) (p : pet) : bool :=
  nonempty available_balls
  && negb (has_ball p)
  && negb (if state_eq_dec (state p) WITH_BALL then true else false)
  && is_none (on_wall p).

(** The block of [update] that looks for the nearest ball. *)
Definition chase_interrupt (available_balls : list Ball.ball) (p : pet) : pet :=
  if chase_guard available_balls p then
    match find_nearest_ball p available_balls with
    | Some nearest_ball =>
        if Ball.visible nearest_ball then
          let current_distance := current_distance p available_balls in
          let nearest_distance :=
            get_distance_to p (Ball.x nearest_ball) (Ball.y nearest_ball) in
          if in_states (state p) [IDLE; WALK]
             || lt_or_inf nearest_distance current_distance
             || id_differs (target_ball_id p) (Ball.unique_id nearest_ball)
          then
            chase_ball (Ball.x nearest_ball) (Ball.y nearest_ball)
              (set_target_ball_id (Some (Ball.unique_id nearest_ball)) p)
          else p
        else p
    | None => p
    end
  else p.

Definition _start_climbing (rnd : draws) (p : pet) : option pet :=
  let p :=
    if Rlt_dec (x p) (canvas_width p / 2)
    then set_target_x (wall_margin p) (set_on_wall (Some LeftWall) p)
    else set_target_x (canvas_width p - wall_margin p)
                      (set_on_wall (Some RightWall) p) in
  let p := set_x (target_x p) p in
  let min_y := 50%Z in
  let max_y := py_int (ground_y p * 0.6) in
  match randint (IZR min_y) (IZR (Z.max (min_y + 50) max_y))
                (randint_coord rnd) with
  | Some v =>
      let p := set_climb_target_y (IZR v) p in
      let p := _change_state CLIMB_UP p in
      Some (set_state_duration 8000 p)
  | None => None
  end.

Definition _update_idle (dt : Z) (rnd : draws) (p : pet) : option pet :=
  if (state_timer p >=? state_duration p)%Z then
    let action := random_random rnd in
    if (if Rlt_dec action 0.1 then true else false) && has_swipe p then
      Some (set_state_duration 500 (_change_state SWIPE p))
    else if (if Rlt_dec action 0.2 then true else false)
            && (if Rgt_dec (canvas_height p) 100 then true else false) then
      _start_climbing rnd p
    else
      match randint (wall_margin p + 20)
                    (canvas_width p - wall_margin p - 20)
                    (randint_coord rnd) with
      | Some v =>
          let p := set_target_x (IZR v) p in
          let p := _change_state WALK p in
          Some (set_state_duration (randint_duration rnd) p)
      | None => None
      end
  else Some p.

Definition _update_walk (dt : Z) (rnd : draws) (p : pet) : pet :=
  let dx := target_x p - x p in
  if Rlt_dec (Rabs dx) 10 then
    let p := set_vx (vx p * 0.5) p in
    let p := _change_state IDLE p in
    set_state_duration (randint_duration rnd) p
  else
    let p := set_direction (if Rgt_dec dx 0 then 1 else -1)%Z p in
    let target_speed := Rmin (Rabs dx * 0.1) (max_speed p * 0.7) in
    set_vx (vx p + (IZR (direction p) * target_speed - vx p) * acceleration p) p.

Definition _update_run (dt : Z) (p : pet) : pet :=
  let dx := target_x p - x p in
  if Rlt_dec (Rabs dx) 10 then
    set_vx (vx p * 0.7) p
  else
    let p := set_direction (if Rgt_dec dx 0 then 1 else -1)%Z p in
    let target_speed := max_speed p in
    set_vx (vx p + (IZR (direction p) * target_speed - vx p)
                   * acceleration p * 2.0) p.

Definition _update_with_ball (dt : Z) (rnd : draws) (p : pet) : pet :=
  let p := set_ball_timer (ball_timer p + dt) p in
  if (ball_timer p >=? state_duration p)%Z then
    let p := set_has_ball false p in
    let p := set_target_ball_id None p in
    let p := _change_state IDLE p in
    set_state_duration (randint_duration rnd) p
  else p.

Definition _update_climb_up (dt : Z) (rnd : draws) (p : pet) : pet :=
  let dy := climb_target_y p - y p in
  if (if Rlt_dec (Rabs dy) 10 then true else false)
     || (state_timer p >=? state_duration p)%Z then
    if Rlt_dec (random_random rnd) 0.3 then
      _change_state CLIMB_DOWN p
    else
      let p := set_state_timer 0 p in
      let p := set_state_duration (randint_duration rnd) p in
      if (state_timer p >=? state_duration p)%Z
      then _change_state CLIMB_DOWN p
      else p
  else
    let target_speed := Rmin (Rabs dy * 0.08) (max_speed p * 0.6) in
    set_vy (vy p + (- target_speed - vy p) * acceleration p) p.

Definition _update_climb_down (dt : Z) (rnd : draws) (p : pet) : pet :=
  let dy := ground_y p - y p in
  if Rlt_dec dy 10 then
    let p := set_y (ground_y p) p in
    let p := set_on_wall None p in
    let p := set_vy 0 p in
    let p := _change_state IDLE p in
    set_state_duration (randint_duration rnd) p
  else
    let target_speed := Rmin (dy * 0.1) (max_speed p * 0.8) in
    set_vy (vy p + (target_speed - vy p) * acceleration p) p.

Definition _update_swipe (dt : Z) (rnd : draws) (p : pet) : pet :=
  if (state_timer p >=? state_duration p)%Z then
    set_state_duration (randint_duration rnd) (_change_state IDLE p)
  else p.

Definition _clamp_position (p : pet) : pet :=
  match on_wall p with
  | None =>
      let p := set_x (Rmax (wall_margin p)
                           (Rmin (x p) (canvas_width p - wall_margin p))) p in
      set_y (ground_y p) p
  | Some _ =>
      set_y (Rmax 30 (Rmin (y p) (ground_y p))) p
  end.

(** "State machine" dispatch of [update]. *)
Definition state_machine (dt : Z) (rnd : draws) (p : pet) : option pet :=
  match state p with
  | IDLE => _update_idle dt rnd p
  | WALK => Some (_update_walk dt rnd p)
  | RUN => Some (_update_run dt p)
  | WITH_BALL => Some (_update_with_ball dt rnd p)
  | CLIMB_UP => Some (_update_climb_up dt rnd p)
  | CLIMB_DOWN => Some (_update_climb_down dt rnd p)
  | SWIPE => Some (_update_swipe dt rnd p)
  end.

(** Timers and animation frame at the head of [update]. *)
Definition tick_timers (dt : Z) (p : pet) : pet :=
  let p := set_state_timer (state_timer p + dt) p in
  let p := set_frame_timer (frame_timer p + dt) p in
  if (frame_timer p >=? frame_interval p)%Z then set_frame_timer 0 p else p.

(** "Apply friction", "Update position" and "Clamp to bounds". *)
Definition move (p : pet) : pet :=
  let p := match on_wall p with
           | None => set_vx (vx p * friction p) p
           | Some _ => set_vy (vy p * friction p) p
           end in
  let p := set_x (x p + vx p) p in
  let p := set_y (y p + vy p) p in
  _clamp_position p.

(** [Pet.update dt available_balls]: [None] when the call raises. *)
Definition update (dt : Z) (available_balls : list Ball.ball) (rnd : draws)
    (p : pet) : option pet :=
  let p := tick_timers dt p in
  let p := chase_interrupt available_balls p in
  match state_machine dt rnd p with
  | Some p => Some (move p)
  | None => None
  end.

End Pet.

(** ** The coordinator ([NotepadWithPets] in [src/notepad_app.py]) *)

Import Pet.

Record world := mk_world {
  pets : list pet;
  balls : list Ball.ball;
  pet_canvas : canvas;
  pet_height : R;
  animation_running : bool;
  _id_counter : Z            (* the class variable [Ball._id_counter] *)
}.



(** A pet the scan of [_animate] may award the ball to. *)
Definition can_catch (ball : Ball.ball) (p : pet) : bool :=
  if has_ball p && (if state_eq_dec (state p) WITH_BALL then true else false)
  then false
  else in_states (state p) [RUN; WALK]
       && match target_ball_id p with
          | Some t => (t =? Ball.unique_id ball)%Z
          | None => false
          end.

(** "Find the closest pet that can catch this ball": the scan over
    [self.pets]; [i] is the position of the head of [ps] in [self.pets], the
    result is the position of [closest_pet] and [closest_distance]. *)
Fixpoint find_closest_pet (ball : Ball.ball) (ps : list pet) (i : nat)
    (closest_pet : option nat) (closest_distance : R) : option nat * R :=
  match ps with
  | [] => (closest_pet, closest_distance)
  | p :: rest =>
      if can_catch ball p then
        let distance := get_distance_to p (Ball.x ball) (Ball.y ball) in
        if Rlt_dec distance closest_distance
        then find_closest_pet ball rest (S i) (Some i) distance
        else find_closest_pet ball rest (S i) closest_pet closest_distance
      else find_closest_pet ball rest (S i) closest_pet closest_distance
  end.

(** The catch radius, initial value of [closest_distance]. *)
Definition catch_radius : R := 35.

Definition closest_pet (ball : Ball.ball) (ps : list pet) : option nat :=
  fst (find_closest_pet ball ps 0 None catch_radius).

(** In-place update of the object at position [n] of a list. *)
Fixpoint update_nth {A : Type} (n : nat) (f : A -> A) (l : list A) : list A :=
  match l, n with
  | [], _ => []
  | a :: l', O => f a :: l'
  | a :: l', S n' => a :: update_nth n' f l'
  end.

(** What [_animate] does to [closest_pet]. *)
Definition catch (p : pet) : pet :=
  let p := set_has_ball true p in
  let p := _change_state WITH_BALL p in
  let p := set_state_duration 1500 p in
  set_target_ball_id None p.

(** "Also clear target for other pets chasing this ball". *)
Definition clear_target (ball : Ball.ball) (p : pet) : pet :=
  match target_ball_id p with
  | Some t =>
      if (t =? Ball.unique_id ball)%Z then
        let p := set_target_ball_id None p in
        if state_eq_dec (state p) RUN then _change_state IDLE p else p
      else p
  | None => p
  end.

(** Body of the loop "for ball in self.balls": the pets and the canvas after
    it, the ball after it, and whether the ball was appended to
    [balls_to_remove]. *)
Definition ball_step (ps : list pet) (cv : canvas) (ball : Ball.ball)
  : list pet * canvas * Ball.ball * bool :=
  if Ball.visible ball then
    let ball := Ball.update cv ball in
    match closest_pet ball ps with
    | Some i =>
        let ps := update_nth i catch ps in
        let ps := map (clear_target ball) ps in
        let '(ball, cv) := Ball.hide cv ball in
        (ps, cv, ball, true)
    | None =>
        if Ball.visible ball
        then let '(ball, cv) := Ball.draw cv ball in (ps, cv, ball, false)
        else (ps, cv, ball, false)
    end
  else (ps, cv, ball, false).

(** The whole loop over [self.balls]; every ball comes back with its
    membership in [balls_to_remove]. *)
Fixpoint ball_loop (ps : list pet) (cv : canvas) (bs : list Ball.ball)
  : list pet * canvas * list (Ball.ball * bool) :=
  match bs with
  | [] => (ps, cv, [])
  | ball :: rest =>
      let '(ps1, cv1, ball1, caught) := ball_step ps cv ball in
      let '(ps2, cv2, rest2) := ball_loop ps1 cv1 rest in
      (ps2, cv2, (ball1, caught) :: rest2)
  end.

(** "Remove caught balls from list".  Balls are distinct objects, each once
    in [self.balls], so removing the members of [balls_to_remove] keeps
    exactly the others, in order. *)
Definition remove_caught (l : list (Ball.ball * bool)) : list Ball.ball :=
  map fst (filter (fun bc => negb (snd bc)) l).

(** "Update and draw pets"; [rnd i] holds the draws of the pet at position
    [i].  [None] when some [pet.update] raises. *)
Fixpoint update_pets (dt : Z) (available_balls : list Ball.ball)
    (rnd : nat -> draws) (i : nat) (ps : list pet) : option (list pet) :=
  match ps with
  | [] => Some []
  | p :: rest =>
      match update dt available_balls (rnd i) p with
      | Some p' =>
          match update_pets dt available_balls rnd (S i) rest with
          | Some rest' => Some (p' :: rest')
          | None => None
          end
      | None => None
      end
  end.

(** Ball part of [_animate]: the lines from "Update all balls" to "Remove
    caught balls from list". *)
Definition arbitration (w : world) : world :=
  let '(ps, cv, l) := ball_loop (pets w) (pet_canvas w) (balls w) in
  {| pets := ps;
     balls := remove_caught l;
     pet_canvas := cv;
     pet_height := pet_height w;
     animation_running := animation_running w;
     _id_counter := _id_counter w |}.

(** Head of [_animate]: bounds of every pet, then the canvas is cleared. *)
Definition refresh_bounds (w : world) : world :=
  let canvas_width :=
    match winfo_width (pet_canvas w) with Some cw => cw | None => 800 end in
  let ground_y := pet_height w - 5 in
  {| pets := map (set_bounds canvas_width (pet_height w) ground_y) (pets w);
     balls := balls w;
     pet_canvas := canvas_delete_tag_ball (pet_canvas w);
     pet_height := pet_height w;
     animation_running := animation_running w;
     _id_counter := _id_counter w |}.

(** One call of [_animate] (one tick); [None] when it raises. *)
Definition _animate (rnd : nat -> draws) (w : world) : option world :=
  if negb (animation_running w) then Some w
  else
    let dt := 50%Z in
    let w := arbitration (refresh_bounds w) in
    match update_pets dt (balls w) rnd 0 (pets w) with
    | Some ps =>
        Some {| pets := ps;
                balls := balls w;
                pet_canvas := pet_canvas w;
                pet_height := pet_height w;
                animation_running := animation_running w;
                _id_counter := _id_counter w |}
    | None => None
    end.

(** ** The other handlers of the coordinator *)


Definition set_pets (ps : list pet) (w : world) : world :=
  {| pets := ps; balls := balls w; pet_canvas := pet_canvas w;
     pet_height := pet_height w; animation_running := animation_running w;
     _id_counter := _id_counter w |}.

Definition set_pet_canvas (cv : canvas) (w : world) : world :=
  {| pets := pets w; balls := balls w; pet_canvas := cv;
     pet_height := pet_height w; animation_running := animation_running w;
     _id_counter := _id_counter w |}.


(** [_add_pet pet_type].  Of [pet_type] only the presence of a swipe sprite
    matters here ([swipe]); [d] is the draw of [Pet.__init__] and [rx] the
    value of [random.randint(50, max(100, width - 50))].  [None] when the
    draw raises. *)
Definition _add_pet (swipe : bool) (d rx : Z) (w : world) : option world :=
  let width :=
    match winfo_width (pet_canvas w) with Some cw => cw | None => 800 end in
  let width := if Rlt_dec width 10 then 800 else width in
  let height := pet_height w in
  let ground_y := height - 5 in
  let pet := __init__ swipe d in
  let pet := set_bounds width height ground_y pet in
  match randint 50 (Rmax 100 (width - 50)) rx with
  | Some v =>
      let pet := set_x (IZR v) pet in
      let pet := set_y ground_y pet in
      Some (set_pets (pets w ++ [pet]) w)
  | None => None
  end.


(** [_remove_all_pets]: the pets are cleared and the ball items are deleted
    from the canvas; [self.balls] is not touched. *)
Definition _remove_all_pets (w : world) : world :=
  set_pet_canvas (canvas_delete_tag_ball (pet_canvas w)) (set_pets [] w).

(** [_on_resize event]. *)
Definition _on_resize (event_width : R) (w : world) : world :=
  let width := event_width in
  let height := pet_height w in
  let ground_y := height - 5 in
  set_pets (map (set_bounds width height ground_y) (pets w)) w.





(** ** List numbering of the editor ([src/notepad_app.py]) *)

(** Text is modelled as lists of ASCII characters: [str.upper] and
    [str.lower] are given on the letters a-z and A-Z, and leave every other
    character alone. *)
Module Numbering.

Local Open Scope Z_scope.
Local Open Scope char_scope.

Definition str := list ascii.

Definition ord (c : ascii) : Z := Z.of_nat (nat_of_ascii c).

(** [chr n] for [0 <= n < 256]. *)
Definition chr (n : Z) : ascii := ascii_of_nat (Z.to_nat n).

Definition upper_char (c : ascii) : ascii :=
  if ((ord "a" <=? ord c) && (ord c <=? ord "z"))%Z then chr (ord c - 32) else c.

Definition lower_char (c : ascii) : ascii :=
  if ((ord "A" <=? ord c) && (ord c <=? ord "Z"))%Z then chr (ord c + 32) else c.

Definition upper (s : str) : str := map upper_char s.
Definition lower (s : str) : str := map lower_char s.

(** [roman_map.get(char, 0)]. *)
Definition roman_map_get (char : ascii) : Z :=
  match char with
  | "I" => 1 | "V" => 5 | "X" => 10 | "L" => 50
  | "C" => 100 | "D" => 500 | "M" => 1000
  | _ => 0
  end.

(** One turn of the loop of [_roman_to_int] on the pair
    [(result, prev_value)]. *)
Definition roman_step (st : Z * Z) (char : ascii) : Z * Z :=
  let '(result, prev_value) := st in
  let value := roman_map_get char in
  (if (value <? prev_value)%Z then result - value else result + value, value).

Definition _roman_to_int (roman : str) : Z :=
  let roman := upper roman in
  fst (fold_left roman_step (rev roman) (0, 0)).

Definition val : list Z :=
  [1000; 900; 500; 400; 100; 90; 50; 40; 10; 9; 5; 4; 1].

Definition syb : list str :=
  [["M"]; ["C"; "M"]; ["D"]; ["C"; "D"];
   ["C"]; ["X"; "C"]; ["L"]; ["X"; "L"];
   ["X"]; ["I"; "X"]; ["V"]; ["I"; "V"];
   ["I"]].

(** The loop "while num > 0" of [_to_roman] from index [i] on, [table]
    being what is left of [val] and [syb] at [i].  The inner loop runs
    [num // val[i]] times, appending [syb[i]] and subtracting [val[i]].
    [None] stands for the [IndexError] of [val[i]] past the end. *)
Fixpoint to_roman_loop (table : list (Z * str)) (num : Z) (roman_num : str)
  : option str :=
  match table with
  | [] => if (num >? 0)%Z then None else Some roman_num
  | (v, s) :: rest =>
      if (num >? 0)%Z then
        let n := Z.to_nat (num / v) in
        to_roman_loop rest (num - Z.of_nat n * v)
                      (roman_num ++ concat (repeat s n))
      else Some roman_num
  end.

Definition _to_roman (num : Z) : option str :=
  to_roman_loop (combine val syb) num [].

(** The [style] argument of [_get_numbered_prefix]; [other_style] is any
    string that is none of the seven names. *)
Inductive style :=
  number | paren | paren2 | lower_style | upper_style
| roman_lower | roman_upper | other_style.

(** [_get_numbered_prefix num style]; [format num] is the decimal text
    [f'{num}'] of Python. *)
Definition _get_numbered_prefix (format : Z -> str) (num : Z) (st : style)
  : option str :=
  match st with
  | number => Some (format num ++ ["."; " "])
  | paren => Some (["("] ++ format num ++ [")"; " "])
  | paren2 => Some (format num ++ [")"; " "])
  | lower_style =>
      let letter := chr (ord "a" + (num - 1) mod 26) in
      Some ([letter] ++ ["."; " "])
  | upper_style =>
      let letter := chr (ord "A" + (num - 1) mod 26) in
      Some ([letter] ++ ["."; " "])
  | roman_lower =>
      match _to_roman num with
      | Some r => Some (lower r ++ ["."; " "])
      | None => None
      end
  | roman_upper =>
      match _to_roman num with
      | Some r => Some (r ++ ["."; " "])
      | None => None
      end
  | other_style => Some (format num ++ ["."; " "])
  end.

(** What [_find_last_number_at_level] reads back from the letter of a
    'lower' or 'upper' item: [ord(letter) - ord('a') + 1]. *)
Definition letter_number (base letter : ascii) : Z := ord letter - ord base + 1.

(** The tables of [_to_roman] after their first entry. *)
Definition below_thousand : list (Z * str) := tl (combine val syb).

(** The round trip through [_to_roman] and [_roman_to_int] at [m], as a
    test that can be run. *)
Definition round_trip_below_1000 (m : Z) : bool :=
  match _to_roman m with
  | Some r => ((_roman_to_int r =? m) && (_roman_to_int (lower r) =? m))%Z
  | None => false
  end.

End Numbering.

(** ** Undo and redo history of the editor ([src/notepad_app.py]) *)

(** The text widget is kept abstract: [read_state] stands for the reads of
    [_save_undo_state] (the content, the ranges of every tag, the cursor;
    [None] when one of them raises), [write_state] for what [_restore_state]
    does to the widget.  Callbacks that Tk may run meanwhile are not
    modelled. *)
Module History.

Section Editor.

Context {content tags cursor widget : Type}.

(** A saved state: the dictionary with the keys 'content', 'tags' and
    'cursor'. *)
Record state := mk_state {
  state_content : content;
  state_tags : tags;
  state_cursor : cursor
}.

Variable content_eqb : content -> content -> bool.
Variable tags_eqb : tags -> tags -> bool.
Variable read_state : widget -> option state.
Variable write_state : state -> widget -> widget.

Record editor := mk_editor {
  text_area : widget;
  undo_history : list state;
  redo_history : list state;
  max_history : Z;
  is_undoing : bool
}.

(** [list.pop()]: the last element and the list without it; [None] stands
    for the [IndexError] on an empty list. *)
Definition pop {A : Type} (l : list A) : option (A * list A) :=
  match rev l with
  | [] => None
  | a :: r => Some (a, rev r)
  end.

(** [l[-1]]. *)
Definition top {A : Type} (l : list A) : option A :=
  match pop l with
  | Some (a, _) => Some a
  | None => None
  end.

(** "Check if state is different from last saved state". *)
Definition is_duplicate (undo : list state) (st : state) : bool :=
  match top undo with
  | Some last_state =>
      content_eqb (state_content last_state) (state_content st)
      && tags_eqb (state_tags last_state) (state_tags st)
  | None => false
  end.

Definition _save_undo_state (e : editor) : editor :=
  if is_undoing e then e
  else
    match read_state (text_area e) with
    | Some st =>
        if is_duplicate (undo_history e) st then e
        else
          let undo := undo_history e ++ [st] in
          let undo :=
            if (Z.of_nat (length undo) >? max_history e)%Z
            then tl undo            (* [pop(0)] *)
            else undo in
          {| text_area := text_area e;
             undo_history := undo;
             redo_history := [];
             max_history := max_history e;
             is_undoing := is_undoing e |}
    | None => e
    end.

(** [_restore_state state]: the widget is rewritten and [is_undoing] is
    False afterwards, also when a step raised. *)
Definition _restore_state (st : state) (e : editor) : editor :=
  {| text_area := write_state st (text_area e);
     undo_history := undo_history e;
     redo_history := redo_history e;
     max_history := max_history e;
     is_undoing := false |}.

Definition _undo (e : editor) : editor :=
  if (length (undo_history e) <? 2)%nat then e
  else
    match pop (undo_history e) with
    | Some (current_state, undo) =>
        let e1 := {| text_area := text_area e;
                     undo_history := undo;
                     redo_history := redo_history e ++ [current_state];
                     max_history := max_history e;
                     is_undoing := is_undoing e |} in
        match top undo with
        | Some previous_state => _restore_state previous_state e1
        | None => e1        (* [IndexError], caught by [except]: pass *)
        end
    | None => e
    end.

Definition _redo (e : editor) : editor :=
  match pop (redo_history e) with
  | Some (st, redo) =>
      _restore_state st
        {| text_area := text_area e;
           undo_history := undo_history e ++ [st];
           redo_history := redo;
           max_history := max_history e;
           is_undoing := is_undoing e |}
  | None => e               (* "if not self.redo_history: return" *)
  end.

(** The number of saved states in both histories. *)
Definition saved (e : editor) : Z :=
  Z.of_nat (length (undo_history e) + length (redo_history e)).

End Editor.

End History.

Arguments History.state : clear implicits.
Arguments History.editor : clear implicits.

(** ** Notions used to state the properties *)

(** Euclidean distance from a pet to a ball, as every caller of
    [get_distance_to] computes it. *)
Definition pet_distance (p : pet) (b : Ball.ball) : R :=
  get_distance_to p (Ball.x b) (Ball.y b).

(** Consistency of [state] and [on_wall]: a pet climbing up or down is on a
    wall. *)
Definition climbing_on_wall (p : pet) : Prop :=
  state p = CLIMB_UP \/ state p = CLIMB_DOWN -> on_wall p <> None.

(** [b] is a visible ball of the list at least as near to [p] as every
    visible ball of the list. *)
Definition nearest_visible (p : pet) (balls : list Ball.ball)
    (b : Ball.ball) : Prop :=
  In b balls /\ Ball.visible b = true
  /\ forall b', In b' balls -> Ball.visible b' = true ->
                pet_distance p b <= pet_distance p b'.

(** What the specification says the distance to the currently targeted ball is:
    infinite ([None]) when the pet has no target or no visible ball of the
    list carries the target id, and otherwise the distance to a visible ball
    of the list that carries it. *)
Definition is_target_distance (p : pet) (balls : list Ball.ball)
    (c : option R) : Prop :=
  match c with
  | None =>
      target_ball_id p = None
      \/ exists t, target_ball_id p = Some t
                   /\ forall b, In b balls -> Ball.unique_id b = t ->
                                Ball.visible b = false
  | Some d =>
      exists t b, target_ball_id p = Some t /\ In b balls
                  /\ Ball.unique_id b = t /\ Ball.visible b = true
                  /\ d = pet_distance p b
  end.

(** The retarget condition in the words of the specification. *)
Definition retarget_condition (p : pet) (balls : list Ball.ball)
    (nearest : Ball.ball) : Prop :=
  state p = IDLE \/ state p = WALK
  \/ match current_distance p balls with
     | Some c => pet_distance p nearest < c
     | None => True
     end
  \/ target_ball_id p <> Some (Ball.unique_id nearest).

(** A candidate for [ball] in the words of the specification. *)
Definition candidate (ball : Ball.ball) (p : pet) : Prop :=
  (state p = RUN \/ state p = WALK)
  /\ target_ball_id p = Some (Ball.unique_id ball)
  /\ ~ (has_ball p = true /\ state p = WITH_BALL).

(** A grounded pet at abscissa [px] running after the ball with id [i]. *)
Definition chasing (i : Z) (px : R) (p : pet) : Prop :=
  state p = RUN /\ target_ball_id p = Some i /\ x p = px /\ y p = 95.

(** [n] successive calls of [update] with the same arguments. *)
Fixpoint updates (n : nat) (dt : Z) (balls : list Ball.ball) (rnd : draws)
    (p : pet) : option pet :=
  match n with
  | O => Some p
  | S n' =>
      match update dt balls rnd p with
      | Some q => updates n' dt balls rnd q
      | None => None
      end
  end.

(** Positions in [self.pets] of the pets declared [closest_pet] during one
    pass of the ball loop, in the order of the balls. *)
Fixpoint winners (ps : list pet) (cv : canvas) (bs : list Ball.ball)
  : list nat :=
  match bs with
  | [] => []
  | ball :: rest =>
      let s := ball_step ps cv ball in
      (if Ball.visible ball then
         match closest_pet (Ball.update cv ball) ps with
         | Some i => [i]
         | None => []
         end
       else [])
      ++ winners (fst (fst (fst s))) (snd (fst (fst s))) rest
  end.


(** A pet is on a wall exactly when it is climbing up or down. *)
Definition on_wall_iff_climbing (p : pet) : Prop :=
  on_wall p <> None <-> (state p = CLIMB_UP \/ state p = CLIMB_DOWN).


(** The movement constants [Pet.__init__] sets. *)
Definition pet_constants (p : pet) : Prop :=
  max_speed p = 12 /\ acceleration p = 0.35 /\ friction p = 0.88.

(** Neither component of the velocity exceeds [max_speed]. *)
Definition speed_bounded (p : pet) : Prop :=
  Rabs (vx p) <= max_speed p /\ Rabs (vy p) <= max_speed p.


(** The constants of [Pet.__init__] together with the bound on the speed. *)
Definition limited (p : pet) : Prop := pet_constants p /\ speed_bounded p.

(** ** Concrete pets, balls and worlds *)

(** A canvas 800 pixels wide with nothing drawn on it. *)
Definition canvas800 : canvas :=
  {| winfo_width := Some 800; items := []; next_item := 1 |}.

(** The first ball ever constructed, and the same ball once thrown. *)
Definition fresh_ball : Ball.ball := fst (Ball.__init__ 0).

Definition thrown_ball : Ball.ball :=
  Ball.throw canvas800 100 50 95 1 fresh_ball.

(** Some values for the random draws of an update. *)
Definition draws0 : draws :=
  {| random_random := 0.5; randint_coord := 400; randint_duration := 1500 |}.

(** A pet as [_add_pet] leaves it on an 800 pixel wide canvas. *)
Definition pet800 : pet :=
  set_y 95 (set_x 100 (set_bounds 800 100 95 (__init__ false 1500))).

(** The same pet after [_animate] has read a canvas width of 1 (what
    [winfo_width] reports before the widget is laid out). *)
Definition pet_narrow : pet := set_bounds 1 100 (100 - 5) pet800.

(** A pet running after [thrown_ball], aiming at the place where the ball
    was when the chase began. *)
Definition pet_running : pet :=
  chase_ball 100 50 (set_target_ball_id (Some 0%Z) pet800).

(** A ball with id [i] lying on the ground line (95) at abscissa [bx]. *)
Definition ball_at (i : Z) (bx : R) : Ball.ball :=
  {| Ball.x := bx; Ball.y := 90; Ball.vx := 0; Ball.vy := 0;
     Ball.visible := true; Ball.ball_id := None; Ball.unique_id := i;
     Ball.ground_y := 95;
     Ball.gravity := 0.8; Ball.bounce := 0.6; Ball.friction := 0.95;
     Ball.radius := 5 |}.

(** A grounded pet at abscissa [px], running after the ball with id [i]. *)
Definition runner (i : Z) (px : R) : pet :=
  set_x px (chase_ball 300 90 (set_target_ball_id (Some i) pet800)).

(** Two balls at rest, each with its own pet next to it. *)
Definition two_balls_world : world :=
  {| pets := [runner 0 310; runner 1 510];
     balls := [ball_at 0 300; ball_at 1 500];
     pet_canvas := canvas800;
     pet_height := 100;
     animation_running := true;
     _id_counter := 2 |}.


(** One pet on a canvas that reports a width of 1. *)
Definition narrow_world : world :=
  {| pets := [pet800]; balls := [];
     pet_canvas := {| winfo_width := Some 1; items := []; next_item := 1 |};
     pet_height := 100; animation_running := true; _id_counter := 0 |}.


(** A pet that [_start_climbing] has put on the left wall of a canvas 600
    pixels high. *)
Definition climber : pet :=
  set_state_duration 8000
    (_change_state CLIMB_UP
       (set_climb_target_y 200
          (set_x 30 (set_on_wall (Some LeftWall)
                       (set_bounds 800 600 580 (__init__ false 1500)))))).



(** An editor whose widget holds exactly one saved state (contents, tags
    and cursor are numbers), with two states in the undo history. *)
Definition two_states_editor
  : History.editor nat nat nat (History.state nat nat nat) :=
  History.mk_editor
    (History.mk_state 2%nat 0%nat 0%nat)
    [History.mk_state 1%nat 0%nat 0%nat; History.mk_state 2%nat 0%nat 0%nat]
    [] 100%Z false.

(** * Properties *)

(** Case analysis on every comparison of reals, [Rmax], [Rmin] and [Rabs] in
    sight, then linear arithmetic. *)
Ltac r_cases :=
  unfold Rmax, Rmin, Rabs in *;
  repeat match goal with
         | |- context [Rle_dec ?a ?b] => destruct (Rle_dec a b)
         | |- context [Rlt_dec ?a ?b] => destruct (Rlt_dec a b)
         | |- context [Rge_dec ?a ?b] => destruct (Rge_dec a b)
         | |- context [Rgt_dec ?a ?b] => destruct (Rgt_dec a b)
         | |- context [Rcase_abs ?a] => destruct (Rcase_abs a)
         end;
  simpl in *; try lra.

(** ** Ball *)

Section BallFacts.

Variable cv : canvas.

Lemma throw_canvas_width_ge_50 : 50 <= Ball.throw_canvas_width cv.
Proof.
  unfold Ball.throw_canvas_width.
  destruct (winfo_width cv) as [w|]; [destruct (Rlt_dec w 50)|]; lra.
Qed.

Lemma integrate_visible b : Ball.visible (Ball.integrate b) = Ball.visible b.
Proof. reflexivity. Qed.

Lemma bounce_walls_frame b :
  let m := Ball.bounce_walls cv b in
  Ball.y m = Ball.y b /\ Ball.vy m = Ball.vy b
  /\ Ball.visible m = Ball.visible b /\ Ball.unique_id m = Ball.unique_id b
  /\ Ball.ground_y m = Ball.ground_y b /\ Ball.radius m = Ball.radius b
  /\ Ball.friction m = Ball.friction b /\ Ball.bounce m = Ball.bounce b
  /\ Ball.ball_id m = Ball.ball_id b.
Proof.
  unfold Ball.bounce_walls.
  destruct (winfo_width cv) as [w|]; [|repeat split].
  destruct (Rgt_dec w 50); [|repeat split].
  destruct (Rle_dec (Ball.x b) (Ball.radius b)); [repeat split|].
  destruct (Rge_dec (Ball.x b) (w - Ball.radius b)); repeat split.
Qed.

Lemma bounce_walls_x b w :
  winfo_width cv = Some w -> w > 50 -> 2 * Ball.radius b <= w ->
  Ball.radius b <= Ball.x (Ball.bounce_walls cv b) <= w - Ball.radius b.
Proof.
  intros Hw Hgt Hr. unfold Ball.bounce_walls. rewrite Hw.
  destruct (Rgt_dec w 50); [|lra].
  destruct (Rle_dec (Ball.x b) (Ball.radius b)); [simpl; lra|].
  destruct (Rge_dec (Ball.x b) (w - Ball.radius b)); simpl; lra.
Qed.

Lemma bounce_ground_frame b :
  let g := Ball.bounce_ground b in
  Ball.x g = Ball.x b /\ Ball.visible g = Ball.visible b
  /\ Ball.unique_id g = Ball.unique_id b /\ Ball.ball_id g = Ball.ball_id b.
Proof.
  unfold Ball.bounce_ground.
  destruct (Rge_dec (Ball.y b) (Ball.ground_y b - Ball.radius b));
    repeat split.
Qed.

Lemma update_visible b : Ball.visible (Ball.update cv b) = Ball.visible b.
Proof.
  unfold Ball.update. destruct (Ball.visible b) eqn:V; simpl; [|exact V].
  destruct (bounce_ground_frame (Ball.bounce_walls cv (Ball.integrate b)))
    as (_ & -> & _).
  destruct (bounce_walls_frame (Ball.integrate b)) as (_ & _ & -> & _).
  exact V.
Qed.

Lemma update_unique_id b : Ball.unique_id (Ball.update cv b) = Ball.unique_id b.
Proof.
  unfold Ball.update. destruct (Ball.visible b); simpl; [|reflexivity].
  destruct (bounce_ground_frame (Ball.bounce_walls cv (Ball.integrate b)))
    as (_ & _ & -> & _).
  destruct (bounce_walls_frame (Ball.integrate b)) as (_ & _ & _ & -> & _).
  reflexivity.
Qed.

End BallFacts.

(** C9. [Ball.hide] is idempotent: the ball is not visible after one call,
    and a second call returns the same ball and the same canvas (it is a
    total function, so it raises no error). *)
Theorem hide_idempotent :
  forall (cv : canvas) (b : Ball.ball),
    Ball.visible (fst (Ball.hide cv b)) = false
    /\ Ball.hide (snd (Ball.hide cv b)) (fst (Ball.hide cv b)) = Ball.hide cv b.
Proof.
  intros cv [bx by_ bvx bvy vis [i|] uid gy g bo fr r]; unfold Ball.hide; simpl.
  - destruct (i =? 0)%Z eqn:E; simpl; [rewrite E|]; split; reflexivity.
  - split; reflexivity.
Qed.

(** C6, as amended.  With the constructor's radius 5 and a launch velocity
    [u] in [-3, 3], after [throw] the ball is visible, [vy = -8],
    [vx = u], [x] lies in [radius + 5, width - radius - 5] (hence in
    [radius, width - radius]) for every input, and [y >= radius + 5]; the
    upper bounds on [y] hold when [ground_y] leaves room for them:
    [y <= ground_y - radius] when [ground_y >= 15], and
    [y <= ground_y - radius - 5] when [ground_y >= 20]. *)
Theorem throw_clamps :
  forall (cv : canvas) (x0 y0 gy u : R) (b : Ball.ball),
    Ball.radius b = 5 ->
    -3 <= u <= 3 ->
    let b' := Ball.throw cv x0 y0 gy u b in
    let width := Ball.throw_canvas_width cv in
    Ball.visible b' = true
    /\ Ball.vy b' = -8
    /\ -3 <= Ball.vx b' <= 3
    /\ Ball.radius b' + 5 <= Ball.x b' <= width - Ball.radius b' - 5
    /\ Ball.radius b' <= Ball.x b' <= width - Ball.radius b'
    /\ Ball.radius b' + 5 <= Ball.y b'
    /\ (15 <= gy -> Ball.radius b' <= Ball.y b' <= gy - Ball.radius b')
    /\ (20 <= gy -> Ball.y b' <= gy - Ball.radius b' - 5).
Proof.
  intros cv x0 y0 gy u b Hr Hu b' width.
  pose proof (throw_canvas_width_ge_50 cv) as Hw. fold width in Hw.
  subst b'. unfold Ball.throw. fold width. simpl. rewrite Hr.
  repeat split; try lra; try (intros; r_cases); r_cases.
Qed.

Lemma throw_clamps_witness :
  let b' := Ball.throw canvas800 900 (-20) 95 1 fresh_ball in
  Ball.visible b' = true /\ 10 <= Ball.x b' <= 790 /\ 10 <= Ball.y b' <= 85.
Proof.
  assert (Hr : Ball.radius fresh_ball = 5) by reflexivity.
  assert (Hu : -3 <= 1 <= 3) by lra.
  destruct (throw_clamps canvas800 900 (-20) 95 1 fresh_ball Hr Hu)
    as (Hv & _ & _ & Hx & _ & Hy & _ & Hy').
  assert (Hg : 20 <= 95) by lra. specialize (Hy' Hg).
  unfold Ball.throw_canvas_width in Hx; simpl in *.
  destruct (Rlt_dec 800 50); [lra|].
  repeat split; try assumption; lra.
Defined.

(** C6 as stated fails: with [ground_y = 12] the thrown ball sits at
    [y = 10], below [ground_y - radius = 7]. *)
Lemma throw_low_ground_counterexample :
  let b' := Ball.throw canvas800 100 0 12 0 fresh_ball in
  Ball.visible b' = true
  /\ ~ (Ball.radius b' <= Ball.y b' <= 12 - Ball.radius b').
Proof.
  simpl. split; [reflexivity|]. r_cases.
Qed.

(** C7.  [update] of a ball that is not visible returns it unchanged.  For
    a visible ball: afterwards [y <= ground_y - radius]; when the canvas
    width is known and above 50 (and the radius is the constructor's 5),
    [x] lies in [radius, width - radius]; and on ground contact, that is
    when [y + (vy + gravity) >= ground_y - radius], [y] becomes
    [ground_y - radius], [vx] is the velocity left by the wall bounce times
    [friction], and [vy] is [(vy + gravity) * -bounce], replaced by 0 when
    its absolute value is below 1. *)
Theorem update_bounds :
  forall (cv : canvas) (b : Ball.ball),
    (Ball.visible b = false -> Ball.update cv b = b)
    /\ (Ball.visible b = true ->
        let b' := Ball.update cv b in
        let vy1 := Ball.vy b + Ball.gravity b in
        let y1 := Ball.y b + vy1 in
        let vx1 := Ball.vx (Ball.bounce_walls cv (Ball.integrate b)) in
        Ball.y b' <= Ball.ground_y b - Ball.radius b
        /\ (forall w, winfo_width cv = Some w -> w > 50 ->
                      Ball.radius b = 5 ->
                      Ball.radius b <= Ball.x b' <= w - Ball.radius b)
        /\ (y1 >= Ball.ground_y b - Ball.radius b ->
            Ball.y b' = Ball.ground_y b - Ball.radius b
            /\ Ball.vx b' = vx1 * Ball.friction b
            /\ (Rabs (vy1 * - Ball.bounce b) < 1 -> Ball.vy b' = 0)
            /\ (~ Rabs (vy1 * - Ball.bounce b) < 1 ->
                Ball.vy b' = vy1 * - Ball.bounce b))
        /\ (y1 < Ball.ground_y b - Ball.radius b ->
            Ball.y b' = y1 /\ Ball.vy b' = vy1 /\ Ball.vx b' = vx1)).
Proof.
  intros cv b. split; intros V; unfold Ball.update; rewrite V; simpl;
    [reflexivity|].
  set (m := Ball.bounce_walls cv (Ball.integrate b)).
  destruct (bounce_walls_frame cv (Ball.integrate b))
    as (Hy & Hvy & _ & _ & Hgy & Hr & Hfr & Hbo & _).
  fold m in Hy, Hvy, Hgy, Hr, Hfr, Hbo. simpl in Hy, Hvy, Hgy, Hr, Hfr, Hbo.
  assert (Hx : forall w, winfo_width cv = Some w -> w > 50 ->
                         Ball.radius b = 5 ->
                         Ball.radius b <= Ball.x m <= w - Ball.radius b).
  { intros w Hw Hgt H5.
    apply (bounce_walls_x cv (Ball.integrate b) w Hw Hgt). simpl. lra. }
  unfold Ball.bounce_ground. rewrite Hy, Hvy, Hgy, Hr, Hfr, Hbo.
  destruct (Rge_dec (Ball.y b + (Ball.vy b + Ball.gravity b))
                    (Ball.ground_y b - Ball.radius b)) as [G|G]; simpl.
  - split; [lra|]. split; [exact Hx|]. split; [intros _|intros; lra].
    split; [reflexivity|]. split; [reflexivity|].
    destruct (Rlt_dec (Rabs ((Ball.vy b + Ball.gravity b) * - Ball.bounce b)) 1);
      split; intros; try reflexivity; contradiction.
  - rewrite Hy, Hvy. simpl.
    split; [lra|]. split; [exact Hx|]. split; [intros; lra|].
    intros _. repeat split.
Qed.

Lemma update_bounds_witness :
  let b' := Ball.update canvas800 thrown_ball in
  Ball.y b' <= 95 - 5 /\ 5 <= Ball.x b' <= 800 - 5.
Proof.
  destruct (update_bounds canvas800 thrown_ball) as [_ H].
  destruct (H eq_refl) as (Hy & Hx & _).
  split; [exact Hy|].
  apply (Hx 800 eq_refl); [lra|reflexivity].
Defined.

(** ** Pet: timers and movement *)

Section PetFacts.

Lemma tick_timers_frame dt p :
  let q := tick_timers dt p in
  x q = x p /\ y q = y p /\ state q = state p /\ on_wall q = on_wall p
  /\ has_ball q = has_ball p /\ target_ball_id q = target_ball_id p
  /\ target_x q = target_x p /\ target_y q = target_y p
  /\ ball_timer q = ball_timer p /\ state_duration q = state_duration p
  /\ state_timer q = (state_timer p + dt)%Z.
Proof.
  unfold tick_timers. simpl.
  destruct (_ >=? _)%Z; simpl; repeat split.
Qed.

Lemma move_frame p :
  let q := move p in
  state q = state p /\ on_wall q = on_wall p
  /\ has_ball q = has_ball p /\ target_ball_id q = target_ball_id p
  /\ target_x q = target_x p /\ target_y q = target_y p
  /\ ball_timer q = ball_timer p /\ state_duration q = state_duration p
  /\ state_timer q = state_timer p
  /\ canvas_width q = canvas_width p /\ ground_y q = ground_y p
  /\ wall_margin q = wall_margin p.
Proof.
  unfold move, _clamp_position.
  destruct (on_wall p) eqn:W; simpl; rewrite W; simpl; repeat split;
    assumption.
Qed.

Lemma move_clamped p :
  let q := move p in
  (on_wall q = None ->
     y q = ground_y q /\ wall_margin q <= x q
     /\ (2 * wall_margin q <= canvas_width q ->
         x q <= canvas_width q - wall_margin q))
  /\ (on_wall q <> None ->
     30 <= y q /\ (30 <= ground_y q -> y q <= ground_y q)).
Proof.
  unfold move, _clamp_position.
  destruct (on_wall p) eqn:W; simpl; rewrite W; simpl; rewrite ?W; split;
    try congruence; intros _.
  - split; [apply Rmax_l|]. intros H. apply Rmax_lub; [exact H|apply Rmin_r].
  - split; [reflexivity|]. split; [apply Rmax_l|].
    intros H. apply Rmax_lub; [lra|apply Rmin_r].
Qed.

Lemma update_some_move dt balls rnd p p' :
  update dt balls rnd p = Some p' ->
  exists q, state_machine dt rnd (chase_interrupt balls (tick_timers dt p)) = Some q
            /\ p' = move q.
Proof.
  unfold update. destruct (state_machine _ _ _) as [q|]; [|discriminate].
  intros H; inversion H. exists q. split; reflexivity.
Qed.

End PetFacts.

(** ** The ball-chase interrupt *)

Section ChaseFacts.

Lemma py_min_by_spec {A : Type} (key : A -> R) (rest : list A) :
  forall first,
    let m := py_min_by key first rest in
    In m (first :: rest) /\ forall a, In a (first :: rest) -> key m <= key a.
Proof.
  unfold py_min_by.
  induction rest as [|a rest IH]; intros first; simpl.
  - split; [left; reflexivity|]. intros a [<-|[]]. lra.
  - destruct (Rlt_dec (key a) (key first)) as [L|L].
    + destruct (IH a) as [Hin Hmin]. split.
      * right. exact Hin.
      * intros a' [<-|Ha'].
        -- pose proof (Hmin a (or_introl eq_refl)). lra.
        -- apply Hmin. exact Ha'.
    + destruct (IH first) as [Hin Hmin]. split.
      * destruct Hin as [<-|Hin]; [left; reflexivity|right; right; exact Hin].
      * intros a' [<-|[<-|Ha']].
        -- apply Hmin. left; reflexivity.
        -- pose proof (Hmin first (or_introl eq_refl)). lra.
        -- apply Hmin. right. exact Ha'.
Qed.

Lemma find_nearest_ball_some p balls b :
  find_nearest_ball p balls = Some b -> nearest_visible p balls b.
Proof.
  unfold find_nearest_ball, nearest_visible.
  destruct balls as [|b0 balls0]; [discriminate|].
  set (balls := b0 :: balls0).
  destruct (filter Ball.visible balls) as [|v vs] eqn:F; [discriminate|].
  intros H; injection H as <-.
  destruct (py_min_by_spec
              (fun ball => get_distance_to p (Ball.x ball) (Ball.y ball)) vs v)
    as [Hin Hmin].
  rewrite <- F in Hin, Hmin.
  apply filter_In in Hin. destruct Hin as [Hin Hv].
  split; [exact Hin|]. split; [exact Hv|].
  intros b' Hb' Hv'. apply Hmin. apply filter_In. split; assumption.
Qed.

Lemma find_nearest_ball_none p balls :
  find_nearest_ball p balls = None ->
  forall b, In b balls -> Ball.visible b = false.
Proof.
  unfold find_nearest_ball.
  destruct balls as [|b0 balls0]; [intros _ b []|].
  destruct (filter Ball.visible (b0 :: balls0)) as [|v vs] eqn:F;
    [|discriminate].
  intros _ b Hb. destruct (Ball.visible b) eqn:V; [|reflexivity].
  assert (Hin : In b (filter Ball.visible (b0 :: balls0)))
    by (apply filter_In; split; assumption).
  rewrite F in Hin. destruct Hin.
Qed.

Lemma current_target_distance_some p t balls d :
  current_target_distance p t balls = Some d ->
  exists b, In b balls /\ Ball.unique_id b = t /\ Ball.visible b = true
            /\ d = pet_distance p b.
Proof.
  induction balls as [|b balls IH]; simpl; [discriminate|].
  destruct ((Ball.unique_id b =? t)%Z && Ball.visible b) eqn:E.
  - apply andb_prop in E. destruct E as [E V]. apply Z.eqb_eq in E.
    intros H; inversion H. exists b. repeat split; auto.
  - intros H. destruct (IH H) as (b' & Hin & Hb').
    exists b'. split; [right; exact Hin|exact Hb'].
Qed.

Lemma current_target_distance_none p t balls :
  current_target_distance p t balls = None ->
  forall b, In b balls -> Ball.unique_id b = t -> Ball.visible b = false.
Proof.
  induction balls as [|b balls IH]; simpl; [intros _ b []|].
  destruct ((Ball.unique_id b =? t)%Z && Ball.visible b) eqn:E; [discriminate|].
  intros H b' [<-|Hin] Hid.
  - apply Z.eqb_eq in Hid. rewrite Hid in E. exact E.
  - exact (IH H b' Hin Hid).
Qed.

Lemma current_distance_spec p balls :
  is_target_distance p balls (current_distance p balls).
Proof.
  unfold current_distance, is_target_distance.
  destruct (target_ball_id p) as [t|] eqn:T; [|left; reflexivity].
  destruct (current_target_distance p t balls) as [d|] eqn:C.
  - destruct (current_target_distance_some _ _ _ _ C) as (b & Hb).
    exists t, b. split; [reflexivity|exact Hb].
  - right. exists t. split; [reflexivity|].
    exact (current_target_distance_none p t balls C).
Qed.

(** With unique ids, the targeted ball is found at its own distance. *)
Lemma current_target_distance_unique p balls b :
  NoDup (map Ball.unique_id balls) -> In b balls -> Ball.visible b = true ->
  current_target_distance p (Ball.unique_id b) balls = Some (pet_distance p b).
Proof.
  induction balls as [|b0 balls IH]; simpl; [intros _ []|].
  intros ND Hin V. inversion ND as [|i l Hnotin ND']; subst.
  destruct Hin as [->|Hin].
  - rewrite Z.eqb_refl, V. reflexivity.
  - destruct (Ball.unique_id b0 =? Ball.unique_id b)%Z eqn:E.
    + apply Z.eqb_eq in E. exfalso. apply Hnotin. rewrite E.
      apply in_map. exact Hin.
    + simpl. apply IH; assumption.
Qed.

Lemma chase_guard_true balls p :
  chase_guard balls p = true <->
  balls <> [] /\ has_ball p = false /\ state p <> WITH_BALL
  /\ on_wall p = None.
Proof.
  unfold chase_guard.
  destruct balls as [|b balls]; simpl.
  - split; [discriminate|]. intros [H _]. congruence.
  - destruct (has_ball p); simpl.
    + split; [discriminate|]. intros (_ & H & _). discriminate.
    + destruct (state_eq_dec (state p) WITH_BALL) as [S|S]; simpl.
      * split; [discriminate|]. intros (_ & _ & H & _). contradiction.
      * destruct (on_wall p); simpl.
        -- split; [discriminate|]. intros (_ & _ & _ & H). discriminate.
        -- split; [|reflexivity]. intros _. repeat split; congruence.
Qed.

Lemma retarget_test p balls nb :
  in_states (state p) [IDLE; WALK]
  || lt_or_inf (pet_distance p nb) (current_distance p balls)
  || id_differs (target_ball_id p) (Ball.unique_id nb) = true
  <-> retarget_condition p balls nb.
Proof.
  unfold retarget_condition, in_states, lt_or_inf, id_differs. simpl.
  rewrite !orb_true_iff.
  assert (HI : (if state_eq_dec (state p) IDLE then true else false) = true
               <-> state p = IDLE)
    by (destruct (state_eq_dec (state p) IDLE); split; congruence).
  assert (HW : (if state_eq_dec (state p) WALK then true else false) = true
               <-> state p = WALK)
    by (destruct (state_eq_dec (state p) WALK); split; congruence).
  assert (HD : match current_distance p balls with
               | Some c => if Rlt_dec (pet_distance p nb) c then true else false
               | None => true
               end = true
               <-> match current_distance p balls with
                   | Some c => pet_distance p nb < c
                   | None => True
                   end).
  { destruct (current_distance p balls) as [c|]; [|split; auto].
    destruct (Rlt_dec (pet_distance p nb) c); split; auto; discriminate. }
  assert (HT : match target_ball_id p with
               | Some t => negb (t =? Ball.unique_id nb)%Z
               | None => true
               end = true
               <-> target_ball_id p <> Some (Ball.unique_id nb)).
  { destruct (target_ball_id p) as [t|]; [|split; [discriminate|auto]].
    rewrite negb_true_iff, Z.eqb_neq. split; congruence. }
  rewrite HI, HW, HD, HT.
  split.
  - intros [[[H|[H|H]]|H]|H]; auto. discriminate.
  - intros [H|[H|[H|H]]]; auto.
Qed.

Lemma chase_ball_spec bx by_ p :
  let q := chase_ball bx by_ p in
  target_x q = bx /\ target_y q = by_
  /\ (on_wall p = None -> state p <> CLIMB_DOWN ->
      state q = RUN /\ state_timer q = 0%Z)
  /\ (on_wall p <> None -> state q = CLIMB_DOWN)
  /\ on_wall q = on_wall p /\ has_ball q = has_ball p
  /\ target_ball_id q = target_ball_id p.
Proof.
  unfold chase_ball.
  destruct (on_wall p) as [w|] eqn:W; simpl.
  - repeat split; try congruence.
  - destruct (state_eq_dec (state p) CLIMB_DOWN) as [S|S]; simpl;
      rewrite ?W; repeat split; try congruence.
Qed.

End ChaseFacts.

(** C5.  For a pet in a consistent state (a climbing pet is on a wall),
    the ball-chase interrupt returns the pet unchanged unless the ball list
    is non-empty, the pet holds no ball, is not in WITH_BALL and is not on a
    wall.  Under that guard it looks at [find_nearest_ball], a visible ball
    of the list at minimal Euclidean distance (the pet is unchanged when no
    ball is visible), and it retargets exactly when the pet is IDLE or
    WALK, or that distance is strictly below the distance to the targeted
    ball (infinite when there is no target or it is not visible), or the
    target id differs: then [target_ball_id] is the nearest ball's id,
    [target_x]/[target_y] are its position and the pet is in RUN; otherwise
    the pet is unchanged.  [chase_ball] always sets the target position; it
    ends in RUN when the pet is not on a wall and in CLIMB_DOWN, without
    RUN, when it is. *)
Theorem chase_interrupt_spec :
  forall (balls : list Ball.ball) (p : pet),
    climbing_on_wall p ->
    let p' := chase_interrupt balls p in
    (balls = [] \/ has_ball p = true \/ state p = WITH_BALL
     \/ on_wall p <> None -> p' = p)
    /\ (balls <> [] -> has_ball p = false -> state p <> WITH_BALL ->
        on_wall p = None ->
        match find_nearest_ball p balls with
        | None => (forall b, In b balls -> Ball.visible b = false) /\ p' = p
        | Some nb =>
            nearest_visible p balls nb
            /\ is_target_distance p balls (current_distance p balls)
            /\ (retarget_condition p balls nb ->
                p' = chase_ball (Ball.x nb) (Ball.y nb)
                       (set_target_ball_id (Some (Ball.unique_id nb)) p)
                /\ target_ball_id p' = Some (Ball.unique_id nb)
                /\ target_x p' = Ball.x nb /\ target_y p' = Ball.y nb
                /\ state p' = RUN)
            /\ (~ retarget_condition p balls nb -> p' = p)
        end)
    /\ (forall bx by_,
          target_x (chase_ball bx by_ p) = bx
          /\ target_y (chase_ball bx by_ p) = by_
          /\ (on_wall p = None -> state (chase_ball bx by_ p) = RUN)
          /\ (on_wall p <> None -> state (chase_ball bx by_ p) = CLIMB_DOWN)).
Proof.
  intros balls p Inv p'. subst p'.
  assert (Hcd : on_wall p = None -> state p <> CLIMB_DOWN).
  { intros W S. apply Inv; [right; exact S|exact W]. }
  split; [|split].
  - intros H. unfold chase_interrupt.
    destruct (chase_guard balls p) eqn:G; [|reflexivity].
    apply chase_guard_true in G. destruct G as (G1 & G2 & G3 & G4).
    destruct H as [H|[H|[H|H]]]; congruence.
  - intros G1 G2 G3 G4. unfold chase_interrupt.
    assert (G : chase_guard balls p = true)
      by (apply chase_guard_true; repeat split; assumption).
    rewrite G.
    destruct (find_nearest_ball p balls) as [nb|] eqn:F.
    + pose proof (find_nearest_ball_some _ _ _ F) as N.
      destruct N as (Hin & Hv & Hmin).
      split; [repeat split; assumption|].
      split; [apply current_distance_spec|].
      rewrite Hv. fold (pet_distance p nb).
      destruct (in_states (state p) [IDLE; WALK]
                || lt_or_inf (pet_distance p nb) (current_distance p balls)
                || id_differs (target_ball_id p) (Ball.unique_id nb)) eqn:T.
      * split; [intros _|].
        -- destruct (chase_ball_spec (Ball.x nb) (Ball.y nb)
                       (set_target_ball_id (Some (Ball.unique_id nb)) p))
             as (Hx & Hy & Hrun & _ & _ & _ & Ht).
           split; [reflexivity|]. split; [exact Ht|].
           split; [exact Hx|]. split; [exact Hy|].
           apply Hrun; [exact G4|]. simpl. apply Hcd. exact G4.
        -- intros NT. exfalso. apply NT. apply retarget_test. exact T.
      * split; [|reflexivity].
        intros RT. apply retarget_test in RT. congruence.
    + split; [|reflexivity]. apply (find_nearest_ball_none p balls F).
  - intros bx by_.
    destruct (chase_ball_spec bx by_ p) as (Hx & Hy & Hrun & Hdown & _).
    split; [exact Hx|]. split; [exact Hy|]. split; [|exact Hdown].
    intros W. apply Hrun; [exact W|apply Hcd; exact W].
Qed.

Lemma chase_interrupt_spec_witness :
  let p' := chase_interrupt [thrown_ball] pet800 in
  target_ball_id p' = Some (Ball.unique_id thrown_ball)
  /\ target_x p' = Ball.x thrown_ball /\ state p' = RUN.
Proof.
  assert (Inv : climbing_on_wall pet800)
    by (intros [H|H]; discriminate H).
  destruct (chase_interrupt_spec [thrown_ball] pet800 Inv) as (_ & H & _).
  assert (G1 : [thrown_ball] <> []) by discriminate.
  assert (G3 : state pet800 <> WITH_BALL) by discriminate.
  specialize (H G1 eq_refl G3 eq_refl).
  change (find_nearest_ball pet800 [thrown_ball]) with (Some thrown_ball) in H.
  destruct H as (_ & _ & H & _).
  destruct (H (or_introl eq_refl)) as (_ & Ht & Hx & _ & Hs).
  repeat split; assumption.
Defined.

(** ** A running pet keeps its target *)

Section RunFacts.

Lemma py_min_by_ext {A : Type} (key key' : A -> R) (rest : list A) :
  (forall a, key a = key' a) ->
  forall first, py_min_by key first rest = py_min_by key' first rest.
Proof.
  intros E. unfold py_min_by.
  induction rest as [|a rest IH]; intros first; simpl; [reflexivity|].
  rewrite (E a), (E first). apply IH.
Qed.

Lemma get_distance_to_ext p q bx by_ :
  x q = x p -> y q = y p -> get_distance_to q bx by_ = get_distance_to p bx by_.
Proof. intros Hx Hy. unfold get_distance_to. rewrite Hx, Hy. reflexivity. Qed.

Lemma find_nearest_ball_ext p q balls :
  x q = x p -> y q = y p ->
  find_nearest_ball q balls = find_nearest_ball p balls.
Proof.
  intros Hx Hy. unfold find_nearest_ball.
  destruct balls as [|b0 balls0]; [reflexivity|].
  destruct (filter Ball.visible (b0 :: balls0)) as [|v vs]; [reflexivity|].
  f_equal. apply py_min_by_ext. intros a.
  apply get_distance_to_ext; assumption.
Qed.

Lemma _update_run_frame dt p :
  let q := _update_run dt p in
  target_x q = target_x p /\ target_y q = target_y p /\ state q = state p
  /\ on_wall q = on_wall p /\ has_ball q = has_ball p
  /\ target_ball_id q = target_ball_id p.
Proof.
  unfold _update_run.
  destruct (Rlt_dec (Rabs (target_x p - x p)) 10); simpl; repeat split.
Qed.

Lemma chase_interrupt_same_target balls p nb :
  state p = RUN -> NoDup (map Ball.unique_id balls) ->
  find_nearest_ball p balls = Some nb ->
  target_ball_id p = Some (Ball.unique_id nb) ->
  chase_interrupt balls p = p.
Proof.
  intros S ND F T. unfold chase_interrupt.
  destruct (chase_guard balls p); [|reflexivity].
  rewrite F.
  destruct (find_nearest_ball_some _ _ _ F) as (Hin & Hv & _).
  rewrite Hv.
  unfold current_distance. rewrite T.
  rewrite (current_target_distance_unique p balls nb ND Hin Hv).
  rewrite S. unfold pet_distance, lt_or_inf, id_differs. simpl.
  destruct (Rlt_dec (get_distance_to p (Ball.x nb) (Ball.y nb))
                    (get_distance_to p (Ball.x nb) (Ball.y nb))) as [L|L];
    [lra|].
  rewrite Z.eqb_refl. reflexivity.
Qed.

End RunFacts.

(** C10.  A pet in RUN whose [target_ball_id] is the id of the nearest
    visible ball of the list (ids being unique in the list) is not
    retargeted: the interrupt leaves it as it is, [update] returns, and
    [target_x] and [target_y] are unchanged by the whole [update]. *)
Theorem run_keeps_target :
  forall (dt : Z) (balls : list Ball.ball) (rnd : draws) (p : pet)
         (nb : Ball.ball),
    state p = RUN ->
    NoDup (map Ball.unique_id balls) ->
    find_nearest_ball p balls = Some nb ->
    target_ball_id p = Some (Ball.unique_id nb) ->
    chase_interrupt balls (tick_timers dt p) = tick_timers dt p
    /\ exists p', update dt balls rnd p = Some p'
                  /\ target_x p' = target_x p /\ target_y p' = target_y p
                  /\ state p' = RUN.
Proof.
  intros dt balls rnd p nb S ND F T.
  destruct (tick_timers_frame dt p)
    as (Hx & Hy & Hs & _ & _ & Ht & Htx & Hty & _).
  assert (CI : chase_interrupt balls (tick_timers dt p) = tick_timers dt p).
  { apply (chase_interrupt_same_target balls (tick_timers dt p) nb).
    - rewrite Hs. exact S.
    - exact ND.
    - rewrite (find_nearest_ball_ext p (tick_timers dt p) balls Hx Hy). exact F.
    - rewrite Ht. exact T. }
  split; [exact CI|].
  unfold update. rewrite CI. unfold state_machine. rewrite Hs, S.
  eexists. split; [reflexivity|].
  destruct (move_frame (_update_run dt (tick_timers dt p)))
    as (Ms & _ & _ & _ & Mtx & Mty & _).
  destruct (_update_run_frame dt (tick_timers dt p))
    as (Rtx & Rty & Rs & _).
  rewrite Mtx, Mty, Ms, Rtx, Rty, Rs, Htx, Hty, Hs.
  repeat split. exact S.
Qed.

Lemma run_keeps_target_witness :
  exists p', update 50 [Ball.update canvas800 thrown_ball] draws0 pet_running
             = Some p'
             /\ target_x p' = 100 /\ target_y p' = 50.
Proof.
  assert (ND : NoDup (map Ball.unique_id [Ball.update canvas800 thrown_ball])).
  { simpl. constructor; [intros []|constructor]. }
  assert (F : find_nearest_ball pet_running [Ball.update canvas800 thrown_ball]
              = Some (Ball.update canvas800 thrown_ball)).
  { unfold find_nearest_ball. simpl filter.
    rewrite (update_visible canvas800 thrown_ball). reflexivity. }
  assert (T : target_ball_id pet_running
              = Some (Ball.unique_id (Ball.update canvas800 thrown_ball))).
  { rewrite (update_unique_id canvas800 thrown_ball). reflexivity. }
  destruct (run_keeps_target 50 _ draws0 pet_running _ eq_refl ND F T)
    as (_ & p' & U & Hx & Hy & _).
  exists p'. split; [exact U|]. split; [exact Hx|exact Hy].
Defined.

(** ** Consistency of [state] and [on_wall] *)

Section Consistency.

Ltac inv_solve :=
  unfold climbing_on_wall; simpl;
  try solve [ intros [H|H]; discriminate H
            | intros [H|H] W; discriminate W
            | intros _ W; discriminate W
            | assumption | tauto ].

Lemma init_consistent swipe d : climbing_on_wall (__init__ swipe d).
Proof. inv_solve. Qed.

Lemma set_bounds_consistent w h g p :
  climbing_on_wall p -> climbing_on_wall (set_bounds w h g p).
Proof. intros I. exact I. Qed.

Lemma tick_timers_consistent dt p :
  climbing_on_wall p -> climbing_on_wall (tick_timers dt p).
Proof.
  intros I. destruct (tick_timers_frame dt p) as (_ & _ & Hs & Hw & _).
  unfold climbing_on_wall. rewrite Hs, Hw. exact I.
Qed.

Lemma move_consistent p : climbing_on_wall p -> climbing_on_wall (move p).
Proof.
  intros I. destruct (move_frame p) as (Hs & Hw & _).
  unfold climbing_on_wall. rewrite Hs, Hw. exact I.
Qed.

Lemma chase_ball_consistent bx by_ p :
  climbing_on_wall p -> climbing_on_wall (chase_ball bx by_ p).
Proof.
  intros I. unfold chase_ball.
  destruct (on_wall p) as [w|] eqn:W; simpl.
  - unfold climbing_on_wall. simpl. rewrite W. intros _. discriminate.
  - destruct (state_eq_dec (state p) CLIMB_DOWN) as [S|S]; simpl.
    + exfalso. apply I; [right; exact S|exact W].
    + inv_solve.
Qed.

Lemma chase_interrupt_consistent balls p :
  climbing_on_wall p -> climbing_on_wall (chase_interrupt balls p).
Proof.
  intros I. unfold chase_interrupt.
  destruct (chase_guard balls p); [|exact I].
  destruct (find_nearest_ball p balls) as [nb|]; [|exact I].
  destruct (Ball.visible nb); [|exact I].
  destruct (_ || _ || _); [|exact I].
  apply chase_ball_consistent. exact I.
Qed.

Lemma state_machine_consistent dt rnd p q :
  climbing_on_wall p -> state_machine dt rnd p = Some q -> climbing_on_wall q.
Proof.
  intros I. unfold state_machine.
  destruct (state p) eqn:S.
  - unfold _update_idle, _start_climbing, randint.
    destruct (_ >=? _)%Z; [|intros H; injection H as <-; exact I].
    destruct (_ && has_swipe p); [intros H; injection H as <-; inv_solve|].
    destruct (_ && _).
    + destruct (Rle_dec _ _); [|discriminate].
      intros H; injection H as <-.
      destruct (Rlt_dec (x p) (canvas_width p / 2)); inv_solve.
    + destruct (Rle_dec _ _); [|discriminate].
      intros H; injection H as <-. inv_solve.
  - intros H; injection H as <-. unfold _update_walk.
    destruct (Rlt_dec _ _); [inv_solve|].
    unfold climbing_on_wall; simpl. exact I.
  - intros H; injection H as <-.
    destruct (_update_run_frame dt p) as (_ & _ & Hs & Hw & _).
    unfold climbing_on_wall. rewrite Hs, Hw. exact I.
  - intros H; injection H as <-. unfold _update_with_ball. simpl.
    destruct (_ >=? _)%Z; [inv_solve|].
    unfold climbing_on_wall; simpl. exact I.
  - intros H; injection H as <-. unfold _update_climb_up.
    assert (W : on_wall p <> None) by (apply I; left; exact S).
    destruct (_ || _).
    + destruct (Rlt_dec _ _); simpl;
        [|destruct (_ >=? _)%Z]; unfold climbing_on_wall; simpl; intros _;
        exact W.
    + unfold climbing_on_wall; simpl. exact I.
  - intros H; injection H as <-. unfold _update_climb_down.
    destruct (Rlt_dec _ _); [inv_solve|].
    unfold climbing_on_wall; simpl. exact I.
  - intros H; injection H as <-. unfold _update_swipe.
    destruct (_ >=? _)%Z; [inv_solve|exact I].
Qed.

Lemma update_consistent dt balls rnd p p' :
  climbing_on_wall p -> update dt balls rnd p = Some p' -> climbing_on_wall p'.
Proof.
  intros I U. destruct (update_some_move _ _ _ _ _ U) as (q & SM & ->).
  apply move_consistent.
  eapply state_machine_consistent; [|exact SM].
  apply chase_interrupt_consistent. apply tick_timers_consistent. exact I.
Qed.

Lemma catch_consistent p : climbing_on_wall (catch p).
Proof. inv_solve. Qed.

Lemma clear_target_consistent ball p :
  climbing_on_wall p -> climbing_on_wall (clear_target ball p).
Proof.
  intros I. unfold clear_target.
  destruct (target_ball_id p) as [t|]; [|exact I].
  destruct (t =? Ball.unique_id ball)%Z; [|exact I]. simpl.
  destruct (state_eq_dec (state p) RUN); [inv_solve|exact I].
Qed.

End Consistency.

(** ** Holding a ball *)

Section HoldFacts.

Lemma chase_interrupt_with_ball balls p :
  state p = WITH_BALL -> chase_interrupt balls p = p.
Proof.
  intros S. unfold chase_interrupt, chase_guard. rewrite S. simpl.
  rewrite andb_false_r. reflexivity.
Qed.

Lemma update_with_ball dt balls rnd p :
  state p = WITH_BALL ->
  exists p',
    update dt balls rnd p = Some p'
    /\ ball_timer p' = (ball_timer p + dt)%Z
    /\ ((ball_timer p + dt < state_duration p)%Z ->
        state p' = WITH_BALL /\ has_ball p' = has_ball p
        /\ state_duration p' = state_duration p
        /\ target_ball_id p' = target_ball_id p)
    /\ ((ball_timer p + dt >= state_duration p)%Z ->
        state p' = IDLE /\ has_ball p' = false /\ target_ball_id p' = None
        /\ state_duration p' = randint_duration rnd
        /\ state_timer p' = 0%Z).
Proof.
  intros S.
  destruct (tick_timers_frame dt p)
    as (_ & _ & Hs & _ & Hb & Ht & _ & _ & Hbt & Hd & _).
  unfold update. rewrite chase_interrupt_with_ball by (rewrite Hs; exact S).
  unfold state_machine. rewrite Hs, S.
  eexists. split; [reflexivity|].
  destruct (move_frame (_update_with_ball dt rnd (tick_timers dt p)))
    as (Ms & _ & Mb & Mt & _ & _ & Mbt & Md & Mst & _).
  rewrite Ms, Mb, Mt, Mbt, Md, Mst.
  unfold _update_with_ball. simpl. rewrite Hbt, Hd.
  destruct (ball_timer p + dt >=? state_duration p)%Z eqn:E; simpl.
  - split; [reflexivity|]. split; [intros L; lia|]. intros _. repeat split.
  - split; [reflexivity|]. split; [intros _|intros G; lia].
    rewrite ?Hs, ?Hb, ?Hd, ?Ht. repeat split. exact S.
Qed.

End HoldFacts.

(** ** Two catches by the same pet *)

Lemma updates_hold dt balls rnd :
  (0 <= dt)%Z ->
  forall n p,
    state p = WITH_BALL ->
    (ball_timer p + Z.of_nat n * dt < state_duration p)%Z ->
    exists q, updates n dt balls rnd p = Some q
              /\ state q = WITH_BALL
              /\ ball_timer q = (ball_timer p + Z.of_nat n * dt)%Z
              /\ state_duration q = state_duration p
              /\ has_ball q = has_ball p.
Proof.
  intros Hdt. induction n as [|n IH]; intros p S L.
  - exists p. simpl. repeat split; auto. lia.
  - destruct (update_with_ball dt balls rnd p S) as (p1 & U & Hbt & Hold & _).
    assert (L1 : (ball_timer p + dt < state_duration p)%Z) by nia.
    destruct (Hold L1) as (S1 & Hb1 & Hd1 & _).
    destruct (IH p1 S1) as (q & Uq & Sq & Hbq & Hdq & Hhq).
    { rewrite Hbt, Hd1. nia. }
    exists q. simpl updates. rewrite U.
    split; [exact Uq|]. split; [exact Sq|].
    split; [rewrite Hbq, Hbt; lia|].
    split; [congruence|congruence].
Qed.

(** C2, on the code.  The first catch of a pet is held as the specification says:
    after the catch the pet is still in WITH_BALL after 29 updates of 50 ms
    and drops the ball at the 30th, when [ball_timer] reaches 1500.  But
    [ball_timer] is never reset: when the same pet catches a second ball it
    enters WITH_BALL with [ball_timer = 1500] already, and its very next
    update puts it back to IDLE without the ball. *)
Theorem second_catch_dropped_at_once :
  forall (balls : list Ball.ball) (rnd : draws),
    exists q29 q30 q31 : pet,
      updates 29 50 balls rnd (catch pet_running) = Some q29
      /\ state q29 = WITH_BALL /\ has_ball q29 = true
      /\ update 50 balls rnd q29 = Some q30
      /\ state q30 = IDLE /\ has_ball q30 = false
      /\ ball_timer q30 = 1500%Z
      /\ state (catch (chase_ball 300 90 q30)) = WITH_BALL
      /\ state_duration (catch (chase_ball 300 90 q30)) = 1500%Z
      /\ update 50 balls rnd (catch (chase_ball 300 90 q30)) = Some q31
      /\ state q31 = IDLE /\ has_ball q31 = false.
Proof.
  intros balls rnd.
  destruct (updates_hold 50 balls rnd ltac:(lia) 29 (catch pet_running)
              eq_refl ltac:(simpl; lia))
    as (q29 & U29 & S29 & B29 & D29 & H29).
  simpl in B29, D29, H29.
  destruct (update_with_ball 50 balls rnd q29 S29)
    as (q30 & U30 & B30 & _ & Drop30).
  destruct Drop30 as (S30 & H30 & _); [rewrite B29, D29; lia|].
  rewrite B29 in B30. simpl in B30.
  set (p2 := catch (chase_ball 300 90 q30)).
  assert (S2 : state p2 = WITH_BALL) by reflexivity.
  assert (B2 : ball_timer p2 = ball_timer q30).
  { unfold p2, catch, chase_ball.
    destruct (on_wall q30); simpl;
      [|destruct (state_eq_dec (state q30) CLIMB_DOWN)]; reflexivity. }
  destruct (update_with_ball 50 balls rnd p2 S2)
    as (q31 & U31 & _ & _ & Drop31).
  destruct Drop31 as (S31 & H31 & _).
  { rewrite B2, B30. simpl. lia. }
  exists q29, q30, q31.
  repeat split; assumption.
Qed.

(** ** Catch arbitration *)

Section ArbitrationFacts.

Lemma can_catch_candidate ball p :
  can_catch ball p = true <-> candidate ball p.
Proof.
  unfold can_catch, candidate, in_states. simpl.
  destruct (state p) eqn:S; destruct (has_ball p); simpl;
    destruct (target_ball_id p) as [t|]; simpl;
    try (destruct (Z.eqb_spec t (Ball.unique_id ball)) as [->|N]);
    split; try discriminate; try tauto;
    try (intros ([H|H] & _); discriminate H);
    try (intros (_ & H & _); congruence);
    try (intros _; repeat split; auto; intros [A B]; discriminate).
Qed.

Lemma find_closest_pet_spec ball :
  forall ps i cp cd,
    let r := fst (find_closest_pet ball ps i cp cd) in
    let d := snd (find_closest_pet ball ps i cp cd) in
    d <= cd
    /\ (forall j pj, nth_error ps j = Some pj -> candidate ball pj ->
                     d <= pet_distance pj ball)
    /\ ((r = cp /\ d = cd)
        \/ exists k pk,
             r = Some (i + k)%nat /\ nth_error ps k = Some pk
             /\ candidate ball pk /\ d = pet_distance pk ball /\ d < cd
             /\ forall j pj, (j < k)%nat -> nth_error ps j = Some pj ->
                             candidate ball pj -> d < pet_distance pj ball).
Proof.
  induction ps as [|p rest IH]; intros i cp cd; simpl.
  - split; [lra|]. split; [|left; split; reflexivity].
    intros [|j] pj H; discriminate H.
  - fold (pet_distance p ball).
    destruct (can_catch ball p) eqn:C.
    + destruct (Rlt_dec (pet_distance p ball) cd) as [L|L].
      * destruct (IH (S i) (Some i) (pet_distance p ball))
          as (Hle & Hmin & Hcase).
        split; [lra|]. split.
        -- intros [|j] pj Hj Hc; simpl in Hj.
           ++ injection Hj as <-. exact Hle.
           ++ exact (Hmin j pj Hj Hc).
        -- right. destruct Hcase as [[Hr Hd]|(k & pk & Hr & Hk & Hc & Hd & Hlt & Hfirst)].
           ++ exists 0%nat, p. rewrite Hr, Hd, Nat.add_0_r.
              split; [reflexivity|]. split; [reflexivity|].
              split; [apply can_catch_candidate; exact C|].
              split; [reflexivity|]. split; [exact L|].
              intros j pj Hj. lia.
           ++ exists (S k), pk. rewrite Hr.
              split; [f_equal; lia|]. split; [exact Hk|].
              split; [exact Hc|]. split; [exact Hd|]. split; [lra|].
              intros [|j] pj Hj Hn Hcj; simpl in Hn.
              ** injection Hn as <-. exact Hlt.
              ** apply (Hfirst j pj); [lia|exact Hn|exact Hcj].
      * destruct (IH (S i) cp cd) as (Hle & Hmin & Hcase).
        split; [exact Hle|]. split.
        -- intros [|j] pj Hj Hc; simpl in Hj.
           ++ injection Hj as <-. lra.
           ++ exact (Hmin j pj Hj Hc).
        -- destruct Hcase as [Hsame|(k & pk & Hr & Hk & Hc & Hd & Hlt & Hfirst)];
             [left; exact Hsame|].
           right. exists (S k), pk.
           split; [rewrite Hr; f_equal; lia|]. split; [exact Hk|].
           split; [exact Hc|]. split; [exact Hd|]. split; [exact Hlt|].
           intros [|j] pj Hj Hn Hcj; simpl in Hn.
           ++ injection Hn as <-. lra.
           ++ apply (Hfirst j pj); [lia|exact Hn|exact Hcj].
    + destruct (IH (S i) cp cd) as (Hle & Hmin & Hcase).
      assert (NC : ~ candidate ball p).
      { intros Hc. apply can_catch_candidate in Hc. congruence. }
      split; [exact Hle|]. split.
      * intros [|j] pj Hj Hc; simpl in Hj.
        -- injection Hj as <-. contradiction.
        -- exact (Hmin j pj Hj Hc).
      * destruct Hcase as [Hsame|(k & pk & Hr & Hk & Hc & Hd & Hlt & Hfirst)];
          [left; exact Hsame|].
        right. exists (S k), pk.
        split; [rewrite Hr; f_equal; lia|]. split; [exact Hk|].
        split; [exact Hc|]. split; [exact Hd|]. split; [exact Hlt|].
        intros [|j] pj Hj Hn Hcj; simpl in Hn.
        -- injection Hn as <-. contradiction.
        -- apply (Hfirst j pj); [lia|exact Hn|exact Hcj].
Qed.

(** The scan finds the first candidate at minimal distance, when that
    distance is below the catch radius. *)
Lemma closest_pet_some ball ps w :
  closest_pet ball ps = Some w ->
  exists pw, nth_error ps w = Some pw /\ candidate ball pw
             /\ pet_distance pw ball < catch_radius
             /\ (forall j pj, nth_error ps j = Some pj -> candidate ball pj ->
                              pet_distance pw ball <= pet_distance pj ball)
             /\ (forall j pj, (j < w)%nat -> nth_error ps j = Some pj ->
                              candidate ball pj ->
                              pet_distance pw ball < pet_distance pj ball).
Proof.
  unfold closest_pet. intros H.
  destruct (find_closest_pet_spec ball ps 0 None catch_radius)
    as (_ & Hmin & [[Hr _]|(k & pk & Hr & Hk & Hc & Hd & Hlt & Hfirst)]).
  - congruence.
  - rewrite H in Hr. injection Hr as ->. simpl.
    exists pk. rewrite <- Hd.
    split; [exact Hk|]. split; [exact Hc|]. split; [exact Hlt|].
    split; [exact Hmin|exact Hfirst].
Qed.

Lemma closest_pet_none ball ps :
  closest_pet ball ps = None ->
  forall p, In p ps -> candidate ball p ->
            ~ pet_distance p ball < catch_radius.
Proof.
  unfold closest_pet. intros H p Hin Hc.
  destruct (find_closest_pet_spec ball ps 0 None catch_radius)
    as (_ & Hmin & [[_ Hd]|(k & pk & Hr & _)]).
  - destruct (In_nth_error _ _ Hin) as (j & Hj).
    pose proof (Hmin j p Hj Hc). lra.
  - congruence.
Qed.

Lemma nth_error_update_nth {A : Type} (f : A -> A) (l : list A) :
  forall n j,
    nth_error (update_nth n f l) j
    = if (j =? n)%nat then option_map f (nth_error l j) else nth_error l j.
Proof.
  induction l as [|a l IH]; intros n j.
  - destruct n, j; simpl; try destruct (_ =? _)%nat; reflexivity.
  - destruct n, j; simpl; try reflexivity. apply IH.
Qed.

Lemma update_nth_length {A : Type} (f : A -> A) (l : list A) :
  forall n, length (update_nth n f l) = length l.
Proof.
  induction l as [|a l IH]; intros [|n]; simpl; auto.
Qed.

Lemma clear_target_catch ball p : clear_target ball (catch p) = catch p.
Proof. reflexivity. Qed.

Lemma clear_target_spec ball p :
  let q := clear_target ball p in
  (target_ball_id p = Some (Ball.unique_id ball) ->
     target_ball_id q = None
     /\ (state p = RUN -> state q = IDLE)
     /\ (state p <> RUN -> q = set_target_ball_id None p))
  /\ (target_ball_id p <> Some (Ball.unique_id ball) -> q = p).
Proof.
  unfold clear_target.
  destruct (target_ball_id p) as [t|] eqn:T.
  - destruct (Z.eqb_spec t (Ball.unique_id ball)) as [->|N]; simpl.
    + split; [intros _|intros H; congruence].
      destruct (state_eq_dec (state p) RUN) as [S|S]; simpl;
        repeat split; try congruence.
    + split; [intros H; congruence|reflexivity].
  - split; [discriminate|reflexivity].
Qed.

Lemma hide_not_visible cv b : Ball.visible (fst (Ball.hide cv b)) = false.
Proof.
  unfold Ball.hide, truthy. simpl.
  destruct (Ball.ball_id b) as [i|]; [destruct (i =? 0)%Z|]; reflexivity.
Qed.

Lemma hide_unique_id cv b :
  Ball.unique_id (fst (Ball.hide cv b)) = Ball.unique_id b.
Proof.
  unfold Ball.hide, truthy. simpl.
  destruct (Ball.ball_id b) as [i|]; [destruct (i =? 0)%Z|]; reflexivity.
Qed.

Lemma draw_frame cv b :
  Ball.visible (fst (Ball.draw cv b)) = Ball.visible b
  /\ Ball.unique_id (fst (Ball.draw cv b)) = Ball.unique_id b
  /\ Ball.x (fst (Ball.draw cv b)) = Ball.x b
  /\ Ball.y (fst (Ball.draw cv b)) = Ball.y b.
Proof.
  unfold Ball.draw. destruct (Ball.visible b) eqn:V; simpl; rewrite ?V;
    repeat split.
Qed.

(** The three outcomes of the loop body. *)
Lemma ball_step_hidden ps cv ball :
  Ball.visible ball = false -> ball_step ps cv ball = (ps, cv, ball, false).
Proof. intros V. unfold ball_step. rewrite V. reflexivity. Qed.

Lemma ball_step_caught ps cv ball w :
  Ball.visible ball = true ->
  closest_pet (Ball.update cv ball) ps = Some w ->
  ball_step ps cv ball
  = (map (clear_target (Ball.update cv ball)) (update_nth w catch ps),
     snd (Ball.hide cv (Ball.update cv ball)),
     fst (Ball.hide cv (Ball.update cv ball)), true).
Proof.
  intros V C. unfold ball_step. rewrite V, C.
  destruct (Ball.hide cv (Ball.update cv ball)); reflexivity.
Qed.

Lemma ball_step_missed ps cv ball :
  Ball.visible ball = true ->
  closest_pet (Ball.update cv ball) ps = None ->
  ball_step ps cv ball
  = (ps, snd (Ball.draw cv (Ball.update cv ball)),
     fst (Ball.draw cv (Ball.update cv ball)), false).
Proof.
  intros V C. unfold ball_step. rewrite V, C, update_visible, V.
  destruct (Ball.draw cv (Ball.update cv ball)); reflexivity.
Qed.

Lemma update_ball_id cv b : Ball.ball_id (Ball.update cv b) = Ball.ball_id b.
Proof.
  unfold Ball.update. destruct (Ball.visible b); simpl; [|reflexivity].
  destruct (bounce_ground_frame (Ball.bounce_walls cv (Ball.integrate b)))
    as (_ & _ & _ & ->).
  destruct (bounce_walls_frame cv (Ball.integrate b))
    as (_ & _ & _ & _ & _ & _ & _ & _ & ->).
  reflexivity.
Qed.

Lemma hide_canvas cv b : Ball.ball_id b = None -> snd (Ball.hide cv b) = cv.
Proof. intros H. unfold Ball.hide. simpl. rewrite H. reflexivity. Qed.

Lemma clear_target_other ball p :
  target_ball_id p <> Some (Ball.unique_id ball) -> clear_target ball p = p.
Proof. apply clear_target_spec. Qed.

Lemma ball_step_length ps cv ball :
  length (fst (fst (fst (ball_step ps cv ball)))) = length ps.
Proof.
  destruct (Ball.visible ball) eqn:V;
    [|rewrite (ball_step_hidden ps cv ball V); reflexivity].
  destruct (closest_pet (Ball.update cv ball) ps) as [w|] eqn:C.
  - rewrite (ball_step_caught ps cv ball w V C). simpl.
    rewrite length_map. apply update_nth_length.
  - rewrite (ball_step_missed ps cv ball V C). reflexivity.
Qed.

End ArbitrationFacts.

Section LoopFacts.

Lemma ball_loop_cons ps cv ball rest :
  ball_loop ps cv (ball :: rest)
  = let s := ball_step ps cv ball in
    let l := ball_loop (fst (fst (fst s))) (snd (fst (fst s))) rest in
    (fst (fst l), snd (fst l), (snd (fst s), snd s) :: snd l).
Proof.
  simpl. destruct (ball_step ps cv ball) as [[[ps1 cv1] b1] c]. simpl.
  destruct (ball_loop ps1 cv1 rest) as [[ps2 cv2] l]. reflexivity.
Qed.

Lemma arbitration_balls w :
  balls (arbitration w)
  = remove_caught (snd (ball_loop (pets w) (pet_canvas w) (balls w))).
Proof.
  unfold arbitration.
  destruct (ball_loop (pets w) (pet_canvas w) (balls w)) as [[ps cv] l].
  reflexivity.
Qed.

Lemma arbitration_pets w :
  pets (arbitration w)
  = fst (fst (ball_loop (pets w) (pet_canvas w) (balls w))).
Proof.
  unfold arbitration.
  destruct (ball_loop (pets w) (pet_canvas w) (balls w)) as [[ps cv] l].
  reflexivity.
Qed.

Lemma arbitration_balls_cons ps cv ball rest h run c :
  let s := ball_step ps cv ball in
  let w' := mk_world (fst (fst (fst s))) rest (snd (fst (fst s))) h run c in
  balls (arbitration (mk_world ps (ball :: rest) cv h run c))
  = if snd s then balls (arbitration w')
    else snd (fst s) :: balls (arbitration w').
Proof.
  intros s w'. rewrite !arbitration_balls. simpl pets. simpl pet_canvas.
  simpl balls. rewrite ball_loop_cons. fold s. simpl.
  unfold remove_caught. simpl. destruct (snd s); reflexivity.
Qed.

End LoopFacts.

(** C1.  One visible ball in the arbitration of a tick, after its physics
    update [b1].  If some candidate (state RUN or WALK, targeting this
    ball's id, not holding a ball in WITH_BALL) is strictly within the
    catch radius 35, there is a winner [w]: a candidate at minimal distance,
    strictly below 35; after the step the winner has [has_ball = true],
    state WITH_BALL and no target; every other pet that targeted this ball
    has its target cleared and goes from RUN to IDLE (any other state is
    kept), pets that did not target it are unchanged; the ball is hidden
    and is no longer in the ball list after the arbitration.  If no
    candidate is strictly within the radius, the pets are unchanged and the
    ball stays, visible, in the list. *)
Theorem catch_arbitration :
  forall (ps : list pet) (cv : canvas) (ball : Ball.ball),
    Ball.visible ball = true ->
    let b1 := Ball.update cv ball in
    let ps' := fst (fst (fst (ball_step ps cv ball))) in
    let cv' := snd (fst (fst (ball_step ps cv ball))) in
    let ball' := snd (fst (ball_step ps cv ball)) in
    ((exists p, In p ps /\ candidate b1 p
                /\ pet_distance p b1 < catch_radius) ->
     exists w pw pw',
       nth_error ps w = Some pw /\ candidate b1 pw
       /\ pet_distance pw b1 < 35
       /\ (forall j pj, nth_error ps j = Some pj -> candidate b1 pj ->
                        pet_distance pw b1 <= pet_distance pj b1)
       /\ nth_error ps' w = Some pw'
       /\ has_ball pw' = true /\ state pw' = WITH_BALL
       /\ target_ball_id pw' = None /\ state_duration pw' = 1500%Z
       /\ (forall j pj, j <> w -> nth_error ps j = Some pj ->
             exists pj',
               nth_error ps' j = Some pj'
               /\ (target_ball_id pj = Some (Ball.unique_id b1) ->
                   target_ball_id pj' = None
                   /\ (state pj = RUN -> state pj' = IDLE)
                   /\ (state pj <> RUN -> state pj' = state pj))
               /\ (target_ball_id pj <> Some (Ball.unique_id b1) -> pj' = pj))
       /\ Ball.visible ball' = false
       /\ forall rest h run c,
            balls (arbitration (mk_world ps (ball :: rest) cv h run c))
            = balls (arbitration (mk_world ps' rest cv' h run c)))
    /\ ((forall p, In p ps -> candidate b1 p ->
                   ~ pet_distance p b1 < catch_radius) ->
        ps' = ps /\ Ball.visible ball' = true
        /\ forall rest h run c,
             balls (arbitration (mk_world ps (ball :: rest) cv h run c))
             = ball' :: balls (arbitration (mk_world ps rest cv' h run c))).
Proof.
  intros ps cv ball V b1 ps' cv' ball'.
  destruct (closest_pet b1 ps) as [w|] eqn:C.
  - pose proof (ball_step_caught ps cv ball w V C) as E.
    split.
    + intros _.
      destruct (closest_pet_some _ _ _ C) as (pw & Hw & Hc & Hlt & Hmin & _).
      exists w, pw, (catch pw).
      assert (Hps' : ps' = map (clear_target b1) (update_nth w catch ps))
        by (unfold ps'; rewrite E; reflexivity).
      split; [exact Hw|]. split; [exact Hc|].
      split; [exact Hlt|]. split; [exact Hmin|].
      split.
      { rewrite Hps', nth_error_map, nth_error_update_nth, Nat.eqb_refl, Hw.
        reflexivity. }
      split; [reflexivity|]. split; [reflexivity|].
      split; [reflexivity|]. split; [reflexivity|].
      split.
      { intros j pj Hj Hpj. exists (clear_target b1 pj).
        split.
        - rewrite Hps', nth_error_map, nth_error_update_nth.
          apply Nat.eqb_neq in Hj. rewrite Hj, Hpj. reflexivity.
        - destruct (clear_target_spec b1 pj) as [H1 H2].
          split; [|exact H2].
          intros T. destruct (H1 T) as (Ht & Hrun & Hother).
          split; [exact Ht|]. split; [exact Hrun|].
          intros NR. rewrite (Hother NR). reflexivity. }
      split.
      { unfold ball'. rewrite E. simpl. apply hide_not_visible. }
      intros rest h run c. rewrite arbitration_balls_cons.
      fold ps' cv'. rewrite E. reflexivity.
    + intros N. exfalso.
      destruct (closest_pet_some _ _ _ C) as (pw & Hw & Hc & Hlt & _).
      apply (N pw); [eapply nth_error_In; exact Hw|exact Hc|exact Hlt].
  - pose proof (ball_step_missed ps cv ball V C) as E.
    split.
    + intros (p & Hin & Hc & Hlt). exfalso.
      exact (closest_pet_none _ _ C p Hin Hc Hlt).
    + intros _.
      split; [unfold ps'; rewrite E; reflexivity|].
      split.
      { unfold ball'. rewrite E. simpl.
        destruct (draw_frame cv (Ball.update cv ball)) as (-> & _).
        rewrite update_visible. exact V. }
      intros rest h run c. rewrite arbitration_balls_cons.
      fold ps' cv' ball'. rewrite E. simpl.
      unfold ps'. rewrite E. reflexivity.
Qed.

(** ** Concrete scenes *)

Section SceneFacts.

Lemma get_distance_to_lt p bx by_ d :
  0 <= d -> (x p - bx) ^ 2 + (y p - by_) ^ 2 < d * d ->
  get_distance_to p bx by_ < d.
Proof.
  intros Hd H. unfold get_distance_to.
  rewrite <- (sqrt_square d Hd).
  apply sqrt_lt_1_alt.
  split; [apply Rplus_le_le_0_compat; apply pow2_ge_0|exact H].
Qed.

Lemma get_distance_to_lt_lt p q bx by_ cx cy :
  (x p - bx) ^ 2 + (y p - by_) ^ 2 < (x q - cx) ^ 2 + (y q - cy) ^ 2 ->
  get_distance_to p bx by_ < get_distance_to q cx cy.
Proof.
  intros H. unfold get_distance_to.
  apply sqrt_lt_1_alt.
  split; [apply Rplus_le_le_0_compat; apply pow2_ge_0|exact H].
Qed.

Variable cv : canvas.
Hypothesis Hcv : winfo_width cv = Some 800.

(** Physics of a ball at rest on the ground: it stays where it is. *)
Lemma update_ball_at i bx :
  5 < bx < 795 ->
  Ball.update cv (ball_at i bx)
  = Ball.set_pos_vel (bx + 0) (95 - 5) (0 * 0.95) 0
      (Ball.set_pos_vel (bx + 0) (90 + (0 + 0.8)) 0 (0 + 0.8) (ball_at i bx)).
Proof.
  intros H. unfold Ball.update, Ball.bounce_ground, Ball.bounce_walls,
    Ball.integrate. rewrite Hcv. simpl.
  destruct (Rgt_dec 800 50) as [_|N]; [|exfalso; lra].
  destruct (Rle_dec (bx + 0) 5) as [L|_]; [exfalso; lra|].
  destruct (Rge_dec (bx + 0) (800 - 5)) as [L|_]; [exfalso; lra|].
  simpl.
  destruct (Rge_dec (90 + (0 + 0.8)) (95 - 5)) as [_|N]; [|exfalso; lra].
  destruct (Rlt_dec (Rabs _) 1) as [_|N]; [reflexivity|].
  exfalso. apply N. unfold Rabs. destruct (Rcase_abs _); lra.
Qed.

Lemma can_catch_chasing ball i px p :
  chasing i px p -> Ball.unique_id ball = i -> can_catch ball p = true.
Proof.
  intros (S & T & _) Hi. unfold can_catch, in_states. rewrite S, T, Hi. simpl.
  rewrite andb_false_r, Z.eqb_refl. reflexivity.
Qed.

Lemma can_catch_other_target ball j p :
  target_ball_id p = Some j -> Ball.unique_id ball <> j ->
  can_catch ball p = false.
Proof.
  intros T Hj. unfold can_catch. rewrite T.
  destruct (Z.eqb_spec j (Ball.unique_id ball)) as [E|_]; [congruence|].
  rewrite andb_false_r. destruct (_ && _); reflexivity.
Qed.

Lemma can_catch_with_ball ball p :
  state p = WITH_BALL -> can_catch ball p = false.
Proof.
  intros S. unfold can_catch, in_states. rewrite S. simpl.
  destruct (has_ball p); reflexivity.
Qed.

Lemma chasing_near i bx px p :
  5 < bx < 795 -> chasing i px p ->
  (px - (bx + 0)) ^ 2 + (95 - (95 - 5)) ^ 2 < 35 * 35 ->
  pet_distance p (Ball.update cv (ball_at i bx)) < catch_radius.
Proof.
  intros Hb (_ & _ & X & Y) Hd. rewrite (update_ball_at i bx Hb).
  apply get_distance_to_lt; [unfold catch_radius; lra|].
  rewrite X, Y. unfold catch_radius. simpl Ball.x. simpl Ball.y. exact Hd.
Qed.

(** The scan on a resting ball with its pet [pa] next to it, the other pet
    chasing another ball or already holding one. *)
Lemma closest_pet_two i j bx px pa pb :
  5 < bx < 795 -> i <> j -> chasing i px pa ->
  (px - (bx + 0)) ^ 2 + (95 - (95 - 5)) ^ 2 < 35 * 35 ->
  (target_ball_id pb = Some j ->
   closest_pet (Ball.update cv (ball_at i bx)) [pa; pb] = Some 0%nat)
  /\ (state pb = WITH_BALL ->
      closest_pet (Ball.update cv (ball_at i bx)) [pb; pa] = Some 1%nat).
Proof.
  intros Hb Hij Hch Hd.
  pose proof (chasing_near i bx px pa Hb Hch Hd) as Near.
  assert (Hid : Ball.unique_id (Ball.update cv (ball_at i bx)) = i)
    by (rewrite update_unique_id; reflexivity).
  pose proof (can_catch_chasing _ i px pa Hch Hid) as Ca.
  unfold pet_distance in Near.
  split; intros Hpb; unfold closest_pet; simpl find_closest_pet.
  - rewrite Ca.
    rewrite (can_catch_other_target _ j pb Hpb) by (rewrite Hid; exact Hij).
    destruct (Rlt_dec _ catch_radius) as [_|N]; [reflexivity|contradiction].
  - rewrite (can_catch_with_ball _ pb Hpb), Ca.
    destruct (Rlt_dec _ catch_radius) as [_|N]; [reflexivity|contradiction].
Qed.

(** The loop body in the same two situations. *)
Lemma ball_step_two i j bx px pa pb :
  5 < bx < 795 -> i <> j -> chasing i px pa ->
  (px - (bx + 0)) ^ 2 + (95 - (95 - 5)) ^ 2 < 35 * 35 ->
  (target_ball_id pb = Some j ->
   ball_step [pa; pb] cv (ball_at i bx)
   = ([catch pa; pb], cv,
      fst (Ball.hide cv (Ball.update cv (ball_at i bx))), true))
  /\ (state pb = WITH_BALL -> target_ball_id pb = None ->
      ball_step [pb; pa] cv (ball_at i bx)
      = ([pb; catch pa], cv,
         fst (Ball.hide cv (Ball.update cv (ball_at i bx))), true)).
Proof.
  intros Hb Hij Hch Hd.
  destruct (closest_pet_two i j bx px pa pb Hb Hij Hch Hd) as [C1 C2].
  assert (Hc : snd (Ball.hide cv (Ball.update cv (ball_at i bx))) = cv).
  { apply hide_canvas. rewrite update_ball_id. reflexivity. }
  split.
  - intros T.
    rewrite (ball_step_caught _ cv (ball_at i bx) 0 eq_refl (C1 T)), Hc.
    cbn [map update_nth]. rewrite clear_target_catch.
    rewrite clear_target_other; [reflexivity|].
    rewrite update_unique_id, T. cbn [Ball.unique_id ball_at]. congruence.
  - intros S T.
    rewrite (ball_step_caught _ cv (ball_at i bx) 1 eq_refl (C2 S)), Hc.
    cbn [map update_nth]. rewrite clear_target_catch.
    rewrite clear_target_other; [reflexivity|].
    rewrite T. discriminate.
Qed.

End SceneFacts.

Lemma chasing_runner i px : chasing i px (runner i px).
Proof. repeat split. Qed.

Lemma catch_arbitration_witness :
  let ps := [runner 0 330; runner 0 310] in
  let ps' := fst (fst (fst (ball_step ps canvas800 (ball_at 0 300)))) in
  exists pb pa,
    ps' = [pb; pa]
    /\ state pa = WITH_BALL /\ has_ball pa = true
    /\ state pb = IDLE /\ target_ball_id pb = None
    /\ Ball.visible (snd (fst (ball_step ps canvas800 (ball_at 0 300)))) = false.
Proof.
  intros ps ps'.
  pose proof (catch_arbitration ps canvas800 (ball_at 0 300) eq_refl) as H.
  cbv zeta in H. fold ps' in H. destruct H as [H _].
  assert (U := update_ball_at canvas800 eq_refl 0 300 ltac:(lra)).
  assert (Da : pet_distance (runner 0 310) (Ball.update canvas800 (ball_at 0 300))
               < catch_radius).
  { rewrite U. apply get_distance_to_lt; unfold catch_radius; simpl; lra. }
  assert (Dab : pet_distance (runner 0 310) (Ball.update canvas800 (ball_at 0 300))
                < pet_distance (runner 0 330)
                    (Ball.update canvas800 (ball_at 0 300))).
  { rewrite U. apply get_distance_to_lt_lt; simpl; lra. }
  assert (Ca : candidate (Ball.update canvas800 (ball_at 0 300)) (runner 0 310)).
  { rewrite U. split; [left; reflexivity|]. split; [reflexivity|].
    intros [A _]; discriminate A. }
  assert (Cb : candidate (Ball.update canvas800 (ball_at 0 300)) (runner 0 330)).
  { rewrite U. split; [left; reflexivity|]. split; [reflexivity|].
    intros [A _]; discriminate A. }
  destruct H as (w & pw & pw' & Hw & _ & _ & Hmin & Hw' & Hb & Hs & _ & _
                 & Hothers & Hv & _).
  { exists (runner 0 310). split; [right; left; reflexivity|].
    split; [exact Ca|exact Da]. }
  assert (Len : length ps' = 2%nat).
  { unfold ps'. rewrite ball_step_length. reflexivity. }
  destruct w as [|[|w]]; simpl in Hw.
  - injection Hw as <-.
    pose proof (Hmin 1%nat (runner 0 310) eq_refl Ca). lra.
  - injection Hw as <-.
    destruct (Hothers 0%nat (runner 0 330) ltac:(lia) eq_refl)
      as (pb & Hpb & Ht & _).
    destruct ps' as [|a [|b [|c l]]]; try discriminate Len.
    simpl in Hpb, Hw'. injection Hpb as ->. injection Hw' as ->.
    exists pb, pw'.
    destruct Ht as (Ht & Hrun & _); [rewrite U; reflexivity|].
    repeat split; try assumption. apply Hrun. reflexivity.
  - destruct w; discriminate Hw.
Defined.

(** ** One winner per pet and per tick *)

Section WinnerFacts.

Lemma clear_target_state ball p :
  state p <> RUN -> state (clear_target ball p) = state p.
Proof.
  intros NR. unfold clear_target.
  destruct (target_ball_id p) as [t|]; [|reflexivity].
  destruct (t =? Ball.unique_id ball)%Z; [|reflexivity]. simpl.
  destruct (state_eq_dec (state p) RUN); [contradiction|reflexivity].
Qed.

Lemma clear_target_has_ball ball p :
  has_ball (clear_target ball p) = has_ball p.
Proof.
  unfold clear_target.
  destruct (target_ball_id p) as [t|]; [|reflexivity].
  destruct (t =? Ball.unique_id ball)%Z; [|reflexivity]. simpl.
  destruct (state_eq_dec (state p) RUN); reflexivity.
Qed.

(** A pet holding a ball in WITH_BALL is left so by the loop body. *)
Lemma ball_step_keeps_holder ps cv ball j pj :
  nth_error ps j = Some pj -> state pj = WITH_BALL ->
  exists pj', nth_error (fst (fst (fst (ball_step ps cv ball)))) j = Some pj'
              /\ state pj' = WITH_BALL.
Proof.
  intros Hj S.
  destruct (Ball.visible ball) eqn:V;
    [|rewrite (ball_step_hidden ps cv ball V); exists pj; auto].
  destruct (closest_pet (Ball.update cv ball) ps) as [w|] eqn:C.
  - rewrite (ball_step_caught ps cv ball w V C). simpl.
    rewrite nth_error_map, nth_error_update_nth, Hj.
    destruct (j =? w)%nat; simpl.
    + exists (catch pj). split; reflexivity.
    + exists (clear_target (Ball.update cv ball) pj). split; [reflexivity|].
      rewrite clear_target_state; [exact S|congruence].
  - rewrite (ball_step_missed ps cv ball V C). exists pj. auto.
Qed.

Lemma ball_loop_keeps_holder bs :
  forall ps cv j pj,
    nth_error ps j = Some pj -> state pj = WITH_BALL ->
    exists pj', nth_error (fst (fst (ball_loop ps cv bs))) j = Some pj'
                /\ state pj' = WITH_BALL.
Proof.
  induction bs as [|ball rest IH]; intros ps cv j pj Hj S.
  - exists pj. auto.
  - rewrite ball_loop_cons. simpl.
    destruct (ball_step_keeps_holder ps cv ball j pj Hj S) as (p1 & H1 & S1).
    exact (IH _ _ j p1 H1 S1).
Qed.

Lemma nth_error_same_length {A : Type} (l l' : list A) j a :
  length l = length l' -> nth_error l' j = Some a ->
  exists a', nth_error l j = Some a'.
Proof.
  intros L H.
  assert (Hlt : (j < length l)%nat).
  { rewrite L. apply nth_error_Some. congruence. }
  destruct (nth_error l j) as [a'|] eqn:E; [exists a'; reflexivity|].
  apply nth_error_None in E. lia.
Qed.

Lemma winners_not_holding bs :
  forall ps cv w,
    In w (winners ps cv bs) ->
    exists pw, nth_error ps w = Some pw /\ state pw <> WITH_BALL.
Proof.
  induction bs as [|ball rest IH]; intros ps cv w; simpl; [intros []|].
  intros Hin. apply in_app_or in Hin. destruct Hin as [Hin|Hin].
  - destruct (Ball.visible ball); [|destruct Hin].
    destruct (closest_pet (Ball.update cv ball) ps) as [i|] eqn:C;
      [|destruct Hin].
    destruct Hin as [<-|[]].
    destruct (closest_pet_some _ _ _ C) as (pw & Hw & ([S|S] & _) & _);
      exists pw; split; congruence.
  - destruct (IH _ _ w Hin) as (p1 & H1 & S1).
    destruct (nth_error_same_length ps _ w p1
                (eq_sym (ball_step_length ps cv ball)) H1) as (pw & Hw).
    exists pw. split; [exact Hw|]. intros S.
    destruct (ball_step_keeps_holder ps cv ball w pw Hw S) as (p1' & H1' & S1').
    congruence.
Qed.

Lemma winners_NoDup bs : forall ps cv, NoDup (winners ps cv bs).
Proof.
  induction bs as [|ball rest IH]; intros ps cv; simpl; [constructor|].
  destruct (Ball.visible ball) eqn:V; [|apply IH].
  destruct (closest_pet (Ball.update cv ball) ps) as [w|] eqn:C; [|apply IH].
  simpl. constructor; [|apply IH].
  intros Hin. destruct (winners_not_holding _ _ _ _ Hin) as (p1 & H1 & S1).
  rewrite (ball_step_caught ps cv ball w V C) in H1. simpl in H1.
  destruct (closest_pet_some _ _ _ C) as (pw & Hw & _).
  rewrite nth_error_map, nth_error_update_nth, Nat.eqb_refl, Hw in H1.
  simpl in H1. injection H1 as <-. apply S1. reflexivity.
Qed.

Lemma ball_loop_two ps cv b1 b2 ps1 cv1 b1' c1 ps2 cv2 b2' c2 :
  ball_step ps cv b1 = (ps1, cv1, b1', c1) ->
  ball_step ps1 cv1 b2 = (ps2, cv2, b2', c2) ->
  ball_loop ps cv [b1; b2] = (ps2, cv2, [(b1', c1); (b2', c2)]).
Proof. intros E1 E2. simpl. rewrite E1, E2. reflexivity. Qed.

Lemma winners_two ps cv b1 b2 ps1 cv1 b1' c1 w1 w2 :
  Ball.visible b1 = true -> Ball.visible b2 = true ->
  ball_step ps cv b1 = (ps1, cv1, b1', c1) ->
  closest_pet (Ball.update cv b1) ps = Some w1 ->
  closest_pet (Ball.update cv1 b2) ps1 = Some w2 ->
  winners ps cv [b1; b2] = [w1; w2].
Proof.
  intros V1 V2 E1 C1 C2. simpl. rewrite V1, V2, C1, E1. simpl.
  rewrite C2. reflexivity.
Qed.

End WinnerFacts.

Section TickFacts.

(** Pets that have just caught a ball are still holding it after the
    updates of the same tick. *)
Lemma update_pets_holders dt bs rnd :
  (0 < dt < 1500)%Z ->
  forall ps i,
    Forall (fun p => state p = WITH_BALL /\ has_ball p = true
                     /\ ball_timer p = 0%Z /\ state_duration p = 1500%Z) ps ->
    exists ps', update_pets dt bs rnd i ps = Some ps'
                /\ length ps' = length ps
                /\ Forall (fun p => state p = WITH_BALL /\ has_ball p = true) ps'.
Proof.
  intros Hdt. induction ps as [|p ps IH]; intros i H.
  - exists []. repeat split. constructor.
  - inversion H as [|a l (St & B & T & D) Hps]; subst.
    destruct (update_with_ball dt bs (rnd i) p St) as (p' & U & _ & Hold & _).
    destruct Hold as (S' & B' & _); [lia|].
    destruct (IH (S i) Hps) as (ps' & U' & L' & F').
    exists (p' :: ps'). simpl. rewrite U, U'.
    split; [reflexivity|]. split; [simpl; congruence|].
    constructor; [split; congruence|exact F'].
Qed.

(** One whole tick of [two_balls_world]. *)
Lemma two_balls_tick rnd :
  (exists w', _animate rnd two_balls_world = Some w'
              /\ balls w' = [] /\ length (pets w') = 2%nat
              /\ Forall (fun p => state p = WITH_BALL /\ has_ball p = true)
                        (pets w'))
  /\ winners (pets (refresh_bounds two_balls_world))
             (pet_canvas (refresh_bounds two_balls_world))
             (balls (refresh_bounds two_balls_world)) = [0%nat; 1%nat].
Proof.
  set (cv := pet_canvas (refresh_bounds two_balls_world)).
  set (pa := set_bounds 800 100 (100 - 5) (runner 0 310)).
  set (pb := set_bounds 800 100 (100 - 5) (runner 1 510)).
  change (pets (refresh_bounds two_balls_world)) with [pa; pb].
  change (balls (refresh_bounds two_balls_world))
    with [ball_at 0 300; ball_at 1 500].
  assert (Hcv : winfo_width cv = Some 800) by reflexivity.
  assert (Ha : chasing 0 310 pa) by (repeat split).
  assert (Hb : chasing 1 510 pb) by (repeat split).
  destruct (closest_pet_two cv Hcv 0 1 300 310 pa pb) as [C1 _];
    [lra|lia|exact Ha|lra|].
  specialize (C1 eq_refl).
  destruct (closest_pet_two cv Hcv 1 0 500 510 pb (catch pa)) as [_ C2];
    [lra|lia|exact Hb|lra|].
  specialize (C2 eq_refl).
  destruct (ball_step_two cv Hcv 0 1 300 310 pa pb) as [E1 _];
    [lra|lia|exact Ha|lra|].
  specialize (E1 eq_refl).
  destruct (ball_step_two cv Hcv 1 0 500 510 pb (catch pa)) as [_ E2];
    [lra|lia|exact Hb|lra|].
  specialize (E2 eq_refl eq_refl).
  pose proof (ball_loop_two _ _ _ _ _ _ _ _ _ _ _ _ E1 E2) as L.
  split.
  - assert (A : arbitration (refresh_bounds two_balls_world)
                = mk_world [catch pa; catch pb] [] cv 100 true 2).
    { unfold arbitration.
      change (pets (refresh_bounds two_balls_world)) with [pa; pb].
      change (pet_canvas (refresh_bounds two_balls_world)) with cv.
      change (balls (refresh_bounds two_balls_world))
        with [ball_at 0 300; ball_at 1 500].
      rewrite L. reflexivity. }
    destruct (update_pets_holders 50 [] rnd ltac:(lia) [catch pa; catch pb] 0)
      as (ps' & U & Len & F).
    { repeat constructor. }
    exists (mk_world ps' [] cv 100 true 2).
    split.
    + unfold _animate. change (animation_running two_balls_world) with true.
      cbn [negb]. rewrite A.
      cbn [pets balls pet_canvas pet_height animation_running _id_counter].
      rewrite U. reflexivity.
    + split; [reflexivity|]. split; [exact Len|exact F].
  - exact (winners_two _ cv (ball_at 0 300) (ball_at 1 500) _ _ _ _
             0%nat 1%nat eq_refl eq_refl E1 C1 C2).
Qed.

End TickFacts.

(** C3.  In one pass of the ball loop no pet is declared winner twice: the
    list of winners has no repetition, because a pet that has won is in
    WITH_BALL from then on and so is no candidate for any ball processed
    later in the pass.  Two balls can still be caught in the same tick, by
    two pets, both ending in WITH_BALL: one tick of [two_balls_world]
    leaves no ball and two pets holding one, the winners being the pets at
    positions 0 and 1. *)
Theorem one_win_per_pet_per_tick :
  (forall ps cv bs, NoDup (winners ps cv bs))
  /\ (forall ps cv ball w later other,
        Ball.visible ball = true ->
        closest_pet (Ball.update cv ball) ps = Some w ->
        let s := ball_step ps cv ball in
        exists pw,
          nth_error
            (fst (fst (ball_loop (fst (fst (fst s))) (snd (fst (fst s))) later)))
            w = Some pw
          /\ state pw = WITH_BALL /\ can_catch other pw = false)
  /\ (forall rnd,
        (exists w', _animate rnd two_balls_world = Some w'
                    /\ balls w' = [] /\ length (pets w') = 2%nat
                    /\ Forall (fun p => state p = WITH_BALL
                                        /\ has_ball p = true) (pets w'))
        /\ winners (pets (refresh_bounds two_balls_world))
                   (pet_canvas (refresh_bounds two_balls_world))
                   (balls (refresh_bounds two_balls_world))
           = [0%nat; 1%nat]).
Proof.
  split; [intros ps cv bs; apply winners_NoDup|]. split.
  - intros ps cv ball w later other V C s.
    destruct (closest_pet_some _ _ _ C) as (pw0 & Hw0 & _).
    assert (H1 : nth_error (fst (fst (fst s))) w = Some (catch pw0)).
    { unfold s. rewrite (ball_step_caught ps cv ball w V C). simpl.
      rewrite nth_error_map, nth_error_update_nth, Nat.eqb_refl, Hw0.
      reflexivity. }
    destruct (ball_loop_keeps_holder later _ (snd (fst (fst s))) w _ H1 eq_refl)
      as (pw & Hpw & Spw).
    exists pw. split; [exact Hpw|]. split; [exact Spw|].
    unfold can_catch, in_states. rewrite Spw. simpl.
    destruct (has_ball pw); reflexivity.
  - exact two_balls_tick.
Qed.

(** ** Creation and removal of balls *)

Section BallListFacts.

Lemma ball_step_ball ps cv ball :
  let s := ball_step ps cv ball in
  Ball.unique_id (snd (fst s)) = Ball.unique_id ball
  /\ (snd s = false -> Ball.visible (snd (fst s)) = Ball.visible ball)
  /\ (snd s = true ->
      Ball.visible ball = true /\ Ball.visible (snd (fst s)) = false
      /\ exists w, closest_pet (Ball.update cv ball) ps = Some w).
Proof.
  destruct (Ball.visible ball) eqn:V.
  - destruct (closest_pet (Ball.update cv ball) ps) as [w|] eqn:C.
    + rewrite (ball_step_caught ps cv ball w V C). simpl.
      rewrite hide_unique_id, update_unique_id, hide_not_visible.
      split; [reflexivity|]. split; [discriminate|].
      intros _. split; [reflexivity|]. split; [reflexivity|].
      exists w. reflexivity.
    + rewrite (ball_step_missed ps cv ball V C). simpl.
      destruct (draw_frame cv (Ball.update cv ball)) as (-> & -> & _).
      rewrite update_unique_id, update_visible.
      split; [reflexivity|]. split; [intros _; exact V|discriminate].
  - rewrite (ball_step_hidden ps cv ball V). simpl.
    split; [reflexivity|]. split; [intros _; exact V|discriminate].
Qed.

Lemma remove_caught_cons b c l :
  remove_caught ((b, c) :: l)
  = if c then remove_caught l else b :: remove_caught l.
Proof. unfold remove_caught. simpl. destruct c; reflexivity. Qed.




End BallListFacts.




(** ** Invariants of the world *)

Section WorldInvariants.

Lemma Forall_update_nth {A : Type} (P : A -> Prop) (f : A -> A) (l : list A) :
  (forall a, P (f a)) -> Forall P l -> forall n, Forall P (update_nth n f l).
Proof.
  intros Hf H. induction H as [|a l Ha Hl IH]; intros [|n]; simpl;
    constructor; auto.
Qed.

Lemma ball_step_consistent ps cv ball :
  Forall climbing_on_wall ps ->
  Forall climbing_on_wall (fst (fst (fst (ball_step ps cv ball)))).
Proof.
  intros H.
  destruct (Ball.visible ball) eqn:V;
    [|rewrite (ball_step_hidden ps cv ball V); exact H].
  destruct (closest_pet (Ball.update cv ball) ps) as [w|] eqn:C.
  - rewrite (ball_step_caught ps cv ball w V C). simpl.
    apply Forall_map.
    apply Forall_impl with (P := climbing_on_wall).
    + intros p. apply clear_target_consistent.
    + apply Forall_update_nth; [apply catch_consistent|exact H].
  - rewrite (ball_step_missed ps cv ball V C). exact H.
Qed.

Lemma ball_loop_consistent bs :
  forall ps cv,
    Forall climbing_on_wall ps ->
    Forall climbing_on_wall (fst (fst (ball_loop ps cv bs))).
Proof.
  induction bs as [|ball rest IH]; intros ps cv H; [exact H|].
  rewrite ball_loop_cons. cbv zeta. cbn [fst].
  apply IH. apply ball_step_consistent. exact H.
Qed.

Lemma update_pets_consistent dt bs rnd :
  forall ps i ps',
    Forall climbing_on_wall ps ->
    update_pets dt bs rnd i ps = Some ps' ->
    Forall climbing_on_wall ps'.
Proof.
  induction ps as [|p ps IH]; intros i ps' H; simpl.
  - intros E. injection E as <-. constructor.
  - inversion H as [|a l Hp Hps]; subst.
    destruct (update dt bs (rnd i) p) as [p'|] eqn:U; [|discriminate].
    destruct (update_pets dt bs rnd (S i) ps) as [rest'|] eqn:R;
      [|discriminate].
    intros E. injection E as <-. constructor.
    + exact (update_consistent dt bs (rnd i) p p' Hp U).
    + exact (IH (S i) rest' Hps R).
Qed.

(** A climbing pet is on a wall: true of every new pet, and kept by every
    tick. *)
Lemma _animate_consistent rnd w w' :
  Forall climbing_on_wall (pets w) ->
  _animate rnd w = Some w' ->
  Forall climbing_on_wall (pets w').
Proof.
  intros H. unfold _animate.
  destruct (animation_running w); simpl;
    [|intros E; injection E as <-; exact H].
  destruct (update_pets _ _ _ _ _) as [ps|] eqn:U; [|discriminate].
  intros E. injection E as <-. simpl.
  refine (update_pets_consistent _ _ _ _ _ _ _ U).
  rewrite arbitration_pets. apply ball_loop_consistent.
  unfold refresh_bounds. simpl. apply Forall_map.
  apply Forall_impl with (P := climbing_on_wall); [|exact H].
  intros p. apply set_bounds_consistent.
Qed.




End WorldInvariants.

(** ** Position after an update *)

Section ReturnFacts.

Lemma tick_timers_bounds dt p :
  canvas_width (tick_timers dt p) = canvas_width p
  /\ wall_margin (tick_timers dt p) = wall_margin p.
Proof.
  unfold tick_timers. simpl. destruct (_ >=? _)%Z; split; reflexivity.
Qed.

Lemma chase_interrupt_bounds balls p :
  canvas_width (chase_interrupt balls p) = canvas_width p
  /\ wall_margin (chase_interrupt balls p) = wall_margin p.
Proof.
  unfold chase_interrupt.
  destruct (chase_guard balls p); [|split; reflexivity].
  destruct (find_nearest_ball p balls) as [nb|]; [|split; reflexivity].
  destruct (Ball.visible nb); [|split; reflexivity].
  destruct (_ || _ || _); [|split; reflexivity].
  unfold chase_ball. simpl.
  destruct (on_wall p); simpl;
    [|destruct (state_eq_dec (state p) CLIMB_DOWN)]; split; reflexivity.
Qed.

(** Only the draw of a walk target can raise, and only on a canvas too
    narrow for the range [wall_margin + 20, canvas_width - wall_margin - 20];
    the range of the climb target, [50, max(100, max_y)], is never empty. *)
Lemma state_machine_returns dt rnd p :
  wall_margin p + 20 <= canvas_width p - wall_margin p - 20 ->
  exists q, state_machine dt rnd p = Some q.
Proof.
  intros H. unfold state_machine.
  destruct (state p); try (eexists; reflexivity).
  unfold _update_idle, _start_climbing, randint.
  destruct (_ >=? _)%Z; [|eexists; reflexivity].
  destruct (_ && has_swipe p); [eexists; reflexivity|].
  destruct (_ && _).
  - destruct (Rle_dec _ _) as [_|N]; [eexists; reflexivity|].
    exfalso. apply N. apply IZR_le. lia.
  - destruct (Rle_dec _ _) as [_|N]; [eexists; reflexivity|contradiction].
Qed.

Lemma update_returns dt balls rnd p :
  wall_margin p + 20 <= canvas_width p - wall_margin p - 20 ->
  exists p', update dt balls rnd p = Some p'.
Proof.
  intros H. unfold update.
  destruct (state_machine_returns dt rnd
              (chase_interrupt balls (tick_timers dt p))) as (q & ->).
  - destruct (chase_interrupt_bounds balls (tick_timers dt p)) as (-> & ->).
    destruct (tick_timers_bounds dt p) as (-> & ->). exact H.
  - eexists. reflexivity.
Qed.

End ReturnFacts.

(** C8, as amended.  [Pet.update] returns whenever the canvas leaves room
    for a walk target ([canvas_width >= 2 * wall_margin + 40]).  After
    every [Pet.update] that returns: when [on_wall] is [None],
    [y = ground_y] exactly and [x >= wall_margin], and
    [x <= canvas_width - wall_margin] provided the canvas is at least
    [2 * wall_margin] wide; when [on_wall] is set, [y >= 30], and
    [y <= ground_y] provided [ground_y >= 30].  This holds from every pet
    state and for every ball list. *)
Theorem update_clamps_position :
  forall (dt : Z) (balls : list Ball.ball) (rnd : draws) (p : pet),
    (wall_margin p + 20 <= canvas_width p - wall_margin p - 20 ->
     exists p', update dt balls rnd p = Some p')
    /\ forall p',
         update dt balls rnd p = Some p' ->
         (on_wall p' = None ->
            y p' = ground_y p' /\ wall_margin p' <= x p'
            /\ (2 * wall_margin p' <= canvas_width p' ->
                x p' <= canvas_width p' - wall_margin p'))
         /\ (on_wall p' <> None ->
            30 <= y p' /\ (30 <= ground_y p' -> y p' <= ground_y p')).
Proof.
  intros dt balls rnd p. split; [apply update_returns|].
  intros p' H.
  destruct (update_some_move _ _ _ _ _ H) as (q & _ & ->).
  apply move_clamped.
Qed.

Lemma update_clamps_position_witness :
  exists p', update 50 [] draws0 pet800 = Some p'
             /\ y p' = ground_y p'
             /\ wall_margin p' <= x p' <= canvas_width p' - wall_margin p'.
Proof.
  destruct (update_clamps_position 50 [] draws0 pet800) as [Hret Hpos].
  destruct Hret as (p' & U); [simpl; lra|].
  exists p'. split; [exact U|].
  assert (E : Some p' = Some (move (tick_timers 50 pet800)))
    by (rewrite <- U; reflexivity).
  destruct (Hpos p' U) as [G _].
  injection E as ->.
  destruct (G eq_refl) as (Hy & Hx & Hx').
  split; [exact Hy|]. split; [exact Hx|]. apply Hx'. simpl. lra.
Defined.

(** [pet_narrow] is what the head of [_animate] makes of the pet of
    [narrow_world]. *)
Lemma refresh_bounds_narrow : pets (refresh_bounds narrow_world) = [pet_narrow].
Proof. reflexivity. Qed.

(** C8 as stated fails on a canvas narrower than twice the wall margin:
    the grounded pet is put at [x = wall_margin = 30], to the right of
    [canvas_width - wall_margin = -29]. *)
Lemma narrow_canvas_counterexample :
  exists p', update 50 [] draws0 pet_narrow = Some p'
             /\ on_wall p' = None
             /\ ~ (wall_margin p' <= x p' <= canvas_width p' - wall_margin p').
Proof.
  eexists. split; [reflexivity|]. split; [reflexivity|].
  simpl. r_cases.
Qed.

(** C3 at a concrete scene: the pet that wins the first ball is in
    WITH_BALL, and no candidate, once the second ball has been processed. *)
Lemma one_win_per_pet_per_tick_witness :
  exists pw,
    nth_error
      (fst (fst (ball_loop
                   (fst (fst (fst (ball_step [runner 0 310; runner 1 510]
                                             canvas800 (ball_at 0 300)))))
                   (snd (fst (fst (ball_step [runner 0 310; runner 1 510]
                                             canvas800 (ball_at 0 300)))))
                   [ball_at 1 500])))
      0 = Some pw
    /\ state pw = WITH_BALL /\ can_catch (ball_at 1 500) pw = false.
Proof.
  destruct one_win_per_pet_per_tick as (_ & H & _).
  destruct (closest_pet_two canvas800 eq_refl 0 1 300 310
              (runner 0 310) (runner 1 510)) as [C1 _];
    [lra|lia|apply chasing_runner|lra|].
  exact (H [runner 0 310; runner 1 510] canvas800 (ball_at 0 300) 0%nat
           [ball_at 1 500] (ball_at 1 500) eq_refl (C1 eq_refl)).
Defined.

(** * Further properties of the code *)

(** ** Invariants of the reachable worlds *)


Section ReachableInvariant.

(** A property of pets, possibly depending on the height of the pet area,
    that new pets have and that the bounds, the updates and the arbitration
    keep, holds of every pet of every reachable world. *)
Variable P : R -> pet -> Prop.
Hypothesis P_new :
  forall h swipe d wd vx,
    P h (set_y (h - 5) (set_x vx (set_bounds wd h (h - 5) (__init__ swipe d)))).
Hypothesis P_bounds :
  forall h wd p, P h p -> P h (set_bounds wd h (h - 5) p).
Hypothesis P_update :
  forall h dt bs rnd p p', P h p -> update dt bs rnd p = Some p' -> P h p'.
Hypothesis P_catch :
  forall h ball p, P h p -> can_catch ball p = true -> P h (catch p).
Hypothesis P_clear :
  forall h ball p, P h p -> P h (clear_target ball p).









End ReachableInvariant.





(** ** Adding and removing pets *)

Lemma ball_loop_no_pets bs :
  forall cv,
    fst (fst (ball_loop [] cv bs)) = []
    /\ map Ball.unique_id (remove_caught (snd (ball_loop [] cv bs)))
       = map Ball.unique_id bs
    /\ map Ball.visible (remove_caught (snd (ball_loop [] cv bs)))
       = map Ball.visible bs.
Proof.
  induction bs as [|b bs IH]; intros cv; [repeat split|].
  rewrite ball_loop_cons. cbv zeta.
  destruct (ball_step_ball [] cv b) as (Hid & Hkeep & Hgone).
  pose proof (ball_step_length [] cv b) as L.
  destruct (ball_step [] cv b) as [[[ps1 cv1] b1] c] eqn:E.
  simpl in Hid, Hkeep, Hgone, L |- *.
  destruct ps1; [|discriminate L].
  destruct c.
  - exfalso. destruct Hgone as (_ & _ & w & C); [reflexivity|].
    discriminate C.
  - destruct (IH cv1) as (P & I & V).
    rewrite remove_caught_cons. simpl.
    rewrite P, I, V, Hid, (Hkeep eq_refl). repeat split.
Qed.

(** X11.  "Remove all pets" leaves [self.balls] alone, and without pets no
    ball is ever caught: the tick that follows returns, still has no pet,
    and keeps every ball of the list, in order, with its id and its
    visibility. *)
Theorem balls_outlive_pets rnd w :
  animation_running w = true ->
  exists w',
    _animate rnd (_remove_all_pets w) = Some w'
    /\ pets w' = []
    /\ map Ball.unique_id (balls w') = map Ball.unique_id (balls w)
    /\ map Ball.visible (balls w') = map Ball.visible (balls w).
Proof.
  intros Run. unfold _animate.
  replace (animation_running (_remove_all_pets w)) with true
    by (symmetry; exact Run).
  simpl negb. cbv iota zeta.
  set (w1 := refresh_bounds (_remove_all_pets w)).
  assert (P1 : pets w1 = []) by reflexivity.
  assert (B1 : balls w1 = balls w) by reflexivity.
  pose proof (arbitration_pets w1) as AP.
  pose proof (arbitration_balls w1) as AB.
  rewrite P1 in AP, AB. rewrite B1 in AP, AB.
  destruct (ball_loop_no_pets (balls w) (pet_canvas w1)) as (Lp & Li & Lv).
  rewrite Lp in AP. rewrite AP. simpl.
  eexists. split; [reflexivity|]. simpl.
  rewrite AB. repeat split; assumption.
Qed.

Lemma balls_outlive_pets_witness :
  exists w',
    _animate (fun _ => draws0) (_remove_all_pets two_balls_world) = Some w'
    /\ pets w' = []
    /\ map Ball.unique_id (balls w') = [0; 1]%Z
    /\ map Ball.visible (balls w') = [true; true].
Proof.
  apply (balls_outlive_pets (fun _ => draws0) two_balls_world). reflexivity.
Defined.

Lemma set_bounds_set_bounds a b c a' b' c' p :
  set_bounds a b c (set_bounds a' b' c' p) = set_bounds a b c p.
Proof. destruct p. reflexivity. Qed.

(** X12.  [_add_pet] never raises: [max(100, width - 50)] keeps the range
    of its random draw non-empty for every canvas width.  It appends one
    pet to [self.pets] and changes nothing else; the new pet is in IDLE on
    the ground line [pet_height - 5], holds no ball, has no target, and its
    [canvas_width] is at least 10 (a narrower or unreadable canvas counts
    as 800). *)
Theorem add_pet_appends swipe d rx w :
  exists p,
    _add_pet swipe d rx w = Some (set_pets (pets w ++ [p]) w)
    /\ state p = IDLE /\ has_ball p = false /\ target_ball_id p = None
    /\ on_wall p = None
    /\ x p = IZR rx /\ y p = pet_height w - 5
    /\ ground_y p = pet_height w - 5 /\ canvas_height p = pet_height w
    /\ 10 <= canvas_width p.
Proof.
  unfold _add_pet, randint.
  destruct (Rle_dec 50 _) as [_|N].
  - eexists. split; [reflexivity|]. simpl.
    repeat split.
    destruct (winfo_width (pet_canvas w)) as [cw|].
    + destruct (Rlt_dec cw 10); lra.
    + destruct (Rlt_dec 800 10); lra.
  - exfalso. apply N. eapply Rle_trans; [|apply Rmax_l]. lra.
Qed.


(** X14.  The bounds [_on_resize] gives to the pets do not survive a tick:
    [_animate] sets the bounds of every pet again from the width the canvas
    reports, so a resize event followed by a tick leaves the world exactly
    as the tick alone does. *)
Theorem animate_absorbs_on_resize rnd event_width w :
  animation_running w = true ->
  _animate rnd (_on_resize event_width w) = _animate rnd w.
Proof.
  intros Run. unfold _animate.
  replace (animation_running (_on_resize event_width w)) with true
    by (symmetry; exact Run).
  rewrite Run. simpl negb. cbv iota.
  assert (E : refresh_bounds (_on_resize event_width w) = refresh_bounds w).
  { unfold refresh_bounds, _on_resize. simpl. f_equal.
    rewrite map_map. apply map_ext. intros p.
    apply set_bounds_set_bounds. }
  rewrite E. reflexivity.
Qed.

Lemma animate_absorbs_on_resize_witness :
  _animate (fun _ => draws0) (_on_resize 640 two_balls_world)
  = _animate (fun _ => draws0) two_balls_world.
Proof.
  apply (animate_absorbs_on_resize (fun _ => draws0) 640 two_balls_world).
  reflexivity.
Defined.

(** ** List numbering *)

Section NumberingFacts.

Import Numbering.
Local Open Scope Z_scope.

Lemma roman_map_get_le c : 0 <= roman_map_get c <= 1000.
Proof.
  destruct c as [[] [] [] [] [] [] [] []]; vm_compute; split; discriminate.
Qed.

Lemma fold_roman_prev l :
  forall st, snd st <= 1000 -> snd (fold_left roman_step l st) <= 1000.
Proof.
  induction l as [|c l IH]; intros [r p] H; [exact H|].
  simpl. apply IH. simpl. apply roman_map_get_le.
Qed.

Lemma fold_roman_M k :
  forall r p, p <= 1000 ->
    fold_left roman_step (repeat "M"%char k) (r, p)
    = (r + 1000 * Z.of_nat k,
       match k with O => p | S _ => 1000 end).
Proof.
  induction k as [|k IH]; intros r p H.
  - simpl. f_equal. lia.
  - cbn [repeat fold_left]. unfold roman_step at 2.
    change (roman_map_get "M"%char) with 1000.
    destruct (Z.ltb_spec 1000 p); [lia|].
    rewrite IH by lia. f_equal; [lia|]. destruct k; reflexivity.
Qed.

Lemma roman_to_int_thousands c k s :
  upper_char c = "M"%char ->
  _roman_to_int (repeat c k ++ s) = 1000 * Z.of_nat k + _roman_to_int s.
Proof.
  intros U. unfold _roman_to_int, upper.
  rewrite map_app, rev_app_distr, fold_left_app.
  assert (E : rev (map upper_char (repeat c k)) = repeat "M"%char k).
  { rewrite map_repeat, U. clear. induction k as [|k IH]; [reflexivity|].
    simpl. rewrite IH. clear. induction k as [|k IH]; [reflexivity|].
    simpl. rewrite IH. reflexivity. }
  rewrite E.
  pose proof (fold_roman_prev (rev (map upper_char s)) (0, 0)) as P.
  destruct (fold_left roman_step (rev (map upper_char s)) (0, 0)) as [r p].
  rewrite fold_roman_M by (apply P; simpl; lia).
  simpl. lia.
Qed.

Lemma to_roman_loop_acc table :
  forall num acc,
    to_roman_loop table num acc
    = option_map (app acc) (to_roman_loop table num []).
Proof.
  induction table as [|[v s] rest IH]; intros num acc; simpl.
  - destruct (num >? 0); simpl; [reflexivity|]. rewrite app_nil_r. reflexivity.
  - destruct (num >? 0); simpl; [|rewrite app_nil_r; reflexivity].
    rewrite IH. rewrite (IH _ (concat _)).
    destruct (to_roman_loop rest _ []); simpl; [|reflexivity].
    rewrite app_assoc. reflexivity.
Qed.

Lemma concat_repeat_singleton {A : Type} (a : A) n :
  concat (repeat [a] n) = repeat a n.
Proof. induction n as [|n IH]; [reflexivity|]. simpl. rewrite IH. reflexivity. Qed.

Lemma to_roman_loop_zero table acc : to_roman_loop table 0 acc = Some acc.
Proof. destruct table as [|[v s] rest]; reflexivity. Qed.

Lemma to_roman_loop_head v s rest num :
  0 < v -> 0 <= num ->
  to_roman_loop ((v, s) :: rest) num []
  = option_map (app (concat (repeat s (Z.to_nat (num / v)))))
               (to_roman_loop rest (num mod v) []).
Proof.
  intros Hv H. cbn [to_roman_loop].
  destruct (Z.gtb_spec num 0) as [P|P].
  - rewrite Z2Nat.id by (apply Z.div_pos; lia).
    replace (num - num / v * v) with (num mod v)
      by (rewrite Z.mod_eq by lia; lia).
    rewrite to_roman_loop_acc. reflexivity.
  - assert (E : num = 0) by lia. rewrite E.
    rewrite Z.mod_0_l by lia. rewrite Z.div_0_l by lia.
    rewrite to_roman_loop_zero. reflexivity.
Qed.

(** Above 1000 [_to_roman] writes one M per thousand and then what it
    writes for the remainder. *)
Lemma to_roman_thousands num :
  0 <= num ->
  _to_roman num
  = option_map (app (repeat "M"%char (Z.to_nat (num / 1000))))
               (_to_roman (num mod 1000)).
Proof.
  intros H.
  assert (T : forall m, 0 <= m ->
                _to_roman m
                = option_map (app (repeat "M"%char (Z.to_nat (m / 1000))))
                             (to_roman_loop below_thousand (m mod 1000) [])).
  { intros m Hm. unfold _to_roman.
    change (combine val syb) with ((1000, ["M"%char]) :: below_thousand).
    rewrite to_roman_loop_head by lia. unfold str.
    rewrite concat_repeat_singleton. reflexivity. }
  rewrite (T num H).
  rewrite (T (num mod 1000)) by (apply Z.mod_pos_bound; lia).
  rewrite Z.mod_mod by lia.
  rewrite (Z.div_small (num mod 1000)) by (apply Z.mod_pos_bound; lia).
  destruct (to_roman_loop below_thousand (num mod 1000) []); reflexivity.
Qed.

Lemma to_roman_nonpos num : num <= 0 -> _to_roman num = Some [].
Proof.
  intros H. unfold _to_roman.
  change (combine val syb) with ((1000, ["M"%char]) :: below_thousand).
  cbn [to_roman_loop]. destruct (Z.gtb_spec num 0); [lia|reflexivity].
Qed.

Lemma round_trip_checked :
  forallb round_trip_below_1000 (map Z.of_nat (seq 0 1000)) = true.
Proof. vm_compute. reflexivity. Qed.

Lemma round_trip_small m :
  0 <= m < 1000 ->
  exists r, _to_roman m = Some r
            /\ _roman_to_int r = m /\ _roman_to_int (lower r) = m.
Proof.
  intros H.
  pose proof round_trip_checked as C. rewrite forallb_forall in C.
  specialize (C m). unfold round_trip_below_1000 in C.
  destruct (_to_roman m) as [r|].
  - exists r. split; [reflexivity|].
    apply andb_true_iff in C.
    + destruct C as [A B]. split; apply Z.eqb_eq; assumption.
    + apply in_map_iff. exists (Z.to_nat m). split; [lia|].
      apply in_seq. lia.
  - discriminate C.
    apply in_map_iff. exists (Z.to_nat m). split; [lia|].
    apply in_seq. lia.
Qed.

End NumberingFacts.

(** X15.  [_to_roman] returns for every integer (the index never runs past
    the tables), and [_roman_to_int] reads back what it writes, in upper
    case and in lower case: the result is the number itself when it is
    positive, whatever its size, and 0 (from the empty text) otherwise. *)
Theorem roman_round_trip (num : Z) :
  exists r,
    Numbering._to_roman num = Some r
    /\ Numbering._roman_to_int r = Z.max 0 num
    /\ Numbering._roman_to_int (Numbering.lower r) = Z.max 0 num.
Proof.
  destruct (Z.leb_spec num 0) as [N|P].
  - exists []. rewrite Z.max_l by exact N.
    split; [apply to_roman_nonpos; exact N|]. split; reflexivity.
  - destruct (round_trip_small (num mod 1000)%Z) as (r & T & U & L).
    { apply Z.mod_pos_bound. lia. }
    exists (repeat "M"%char (Z.to_nat (num / 1000)) ++ r).
    rewrite to_roman_thousands by lia. rewrite T.
    split; [reflexivity|].
    assert (D : (0 <= num / 1000)%Z) by (apply Z.div_pos; lia).
    assert (E : (1000 * Z.of_nat (Z.to_nat (num / 1000)) + num mod 1000
                 = Z.max 0 num)%Z).
    { rewrite Z2Nat.id by exact D. rewrite Z.max_r by lia.
      symmetry. apply Z.div_mod. lia. }
    split.
    + rewrite roman_to_int_thousands by reflexivity. rewrite U. exact E.
    + unfold Numbering.lower. rewrite map_app, map_repeat.
      rewrite roman_to_int_thousands by reflexivity.
      fold (Numbering.lower r). rewrite L. exact E.
Qed.

(** X16.  The letter labels of a list repeat with period 26: for every
    integer [num], the 'lower' (or 'upper') prefix is one letter of a-z (or
    A-Z) followed by ". ", the prefix of [num + 26] is the same text, and
    the number [_find_last_number_at_level] reads back from the letter is
    [(num - 1) mod 26 + 1], which is [num] only from 1 to 26. *)
Theorem letter_prefix_wraps (format : Z -> Numbering.str) (num : Z) :
  (exists c,
      Numbering._get_numbered_prefix format num Numbering.lower_style
      = Some [c; "."%char; " "%char]
      /\ (Numbering.ord "a" <= Numbering.ord c <= Numbering.ord "z")%Z
      /\ Numbering.letter_number "a" c = ((num - 1) mod 26 + 1)%Z)
  /\ (exists c,
      Numbering._get_numbered_prefix format num Numbering.upper_style
      = Some [c; "."%char; " "%char]
      /\ (Numbering.ord "A" <= Numbering.ord c <= Numbering.ord "Z")%Z
      /\ Numbering.letter_number "A" c = ((num - 1) mod 26 + 1)%Z)
  /\ Numbering._get_numbered_prefix format (num + 26) Numbering.lower_style
     = Numbering._get_numbered_prefix format num Numbering.lower_style
  /\ Numbering._get_numbered_prefix format (num + 26) Numbering.upper_style
     = Numbering._get_numbered_prefix format num Numbering.upper_style.
Proof.
  assert (B : (0 <= (num - 1) mod 26 < 26)%Z) by (apply Z.mod_pos_bound; lia).
  assert (W : ((num + 26 - 1) mod 26 = (num - 1) mod 26)%Z).
  { replace (num + 26 - 1)%Z with (num - 1 + 1 * 26)%Z by lia.
    apply Z.mod_add. lia. }
  assert (O : forall n, (0 <= n < 256)%Z ->
                        Numbering.ord (Numbering.chr n) = n).
  { intros n Hn. unfold Numbering.ord, Numbering.chr.
    rewrite nat_ascii_embedding by lia. lia. }
  split; [|split; [|split]].
  - eexists. split; [reflexivity|].
    unfold Numbering.letter_number. rewrite O.
    + change (Numbering.ord "a") with 97%Z.
      change (Numbering.ord "z") with 122%Z. lia.
    + change (Numbering.ord "a") with 97%Z. lia.
  - eexists. split; [reflexivity|].
    unfold Numbering.letter_number. rewrite O.
    + change (Numbering.ord "A") with 65%Z.
      change (Numbering.ord "Z") with 90%Z. lia.
    + change (Numbering.ord "A") with 65%Z. lia.
  - unfold Numbering._get_numbered_prefix. rewrite W. reflexivity.
  - unfold Numbering._get_numbered_prefix. rewrite W. reflexivity.
Qed.

(** ** Undo and redo *)

Section HistoryFacts.

Import History.

Context {content tags cursor widget : Type}.
Variable content_eqb : content -> content -> bool.
Variable tags_eqb : tags -> tags -> bool.
Variable read_state : widget -> option (state content tags cursor).
Variable write_state : state content tags cursor -> widget -> widget.

Local Abbreviation editor := (editor content tags cursor widget).
Local Abbreviation save := (_save_undo_state content_eqb tags_eqb read_state).
Local Abbreviation undo := (_undo write_state).
Local Abbreviation redo := (_redo write_state).

Lemma pop_app {A : Type} (l : list A) a : pop (l ++ [a]) = Some (a, l).
Proof. unfold pop. rewrite rev_app_distr. simpl. rewrite rev_involutive. reflexivity. Qed.

Lemma pop_some {A : Type} (l l' : list A) a :
  pop l = Some (a, l') -> l = l' ++ [a].
Proof.
  unfold pop. destruct (rev l) as [|b r] eqn:E; [discriminate|].
  intros H. injection H as <- <-.
  rewrite <- (rev_involutive l), E. reflexivity.
Qed.

Lemma pop_none {A : Type} (l : list A) : pop l = None -> l = [].
Proof.
  unfold pop. destruct (rev l) as [|b r] eqn:E; [|discriminate].
  intros _. rewrite <- (rev_involutive l), E. reflexivity.
Qed.

Lemma top_app {A : Type} (l : list A) a : top (l ++ [a]) = Some a.
Proof. unfold top. rewrite pop_app. reflexivity. Qed.

Lemma save_cases (e : editor) :
  save e = e
  \/ exists st,
       read_state (text_area e) = Some st
       /\ is_undoing e = false
       /\ is_duplicate content_eqb tags_eqb (undo_history e) st = false
       /\ text_area (save e) = text_area e
       /\ redo_history (save e) = []
       /\ max_history (save e) = max_history e
       /\ is_undoing (save e) = false
       /\ undo_history (save e)
          = if (Z.of_nat (length (undo_history e ++ [st])) >? max_history e)%Z
            then tl (undo_history e ++ [st]) else undo_history e ++ [st].
Proof.
  unfold _save_undo_state.
  destruct (is_undoing e) eqn:U; [left; reflexivity|].
  destruct (read_state (text_area e)) as [st|] eqn:Rd; [|left; reflexivity].
  destruct (is_duplicate _ _ _ st) eqn:D; [left; reflexivity|].
  right. exists st. simpl. repeat split; assumption.
Qed.

Lemma undo_cases (e : editor) :
  undo e = e
  \/ exists l p c,
       undo_history e = l ++ [p; c]
       /\ undo_history (undo e) = l ++ [p]
       /\ redo_history (undo e) = redo_history e ++ [c]
       /\ text_area (undo e) = write_state p (text_area e)
       /\ max_history (undo e) = max_history e
       /\ is_undoing (undo e) = false.
Proof.
  unfold _undo.
  destruct (Nat.ltb_spec (length (undo_history e)) 2) as [L|L];
    [left; reflexivity|].
  destruct (pop (undo_history e)) as [[c u]|] eqn:P; [|left; reflexivity].
  apply pop_some in P.
  destruct (pop u) as [[p l]|] eqn:Q.
  - apply pop_some in Q. subst u.
    right. exists l, p, c. unfold top. rewrite pop_app. simpl.
    rewrite P, <- app_assoc. repeat split.
  - apply pop_none in Q. subst u. rewrite P in L. simpl in L. lia.
Qed.

Lemma redo_cases (e : editor) :
  (redo_history e = [] /\ redo e = e)
  \/ exists r s,
       redo_history e = r ++ [s]
       /\ undo_history (redo e) = undo_history e ++ [s]
       /\ redo_history (redo e) = r
       /\ text_area (redo e) = write_state s (text_area e)
       /\ max_history (redo e) = max_history e
       /\ is_undoing (redo e) = false.
Proof.
  unfold _redo.
  destruct (pop (redo_history e)) as [[s r]|] eqn:P.
  - apply pop_some in P. right. exists r, s. repeat split. exact P.
  - apply pop_none in P. left. split; [exact P|reflexivity].
Qed.

(** X17.  The two histories never hold more than [max_history] states in
    all.  [_redo] appends to the undo history without looking at the limit;
    the bound holds all the same because [_undo] and [_redo] only move
    states between the two lists and a new state empties the redo
    history: with a limit of at least 1, each of [_save_undo_state], [_undo]
    and [_redo] keeps the total within the limit, and keeps the limit. *)
Theorem history_stays_bounded (e : editor) :
  (1 <= max_history e)%Z -> (saved e <= max_history e)%Z ->
  ((saved (save e) <= max_history e)%Z
   /\ max_history (save e) = max_history e)
  /\ ((saved (undo e) <= max_history e)%Z
      /\ max_history (undo e) = max_history e)
  /\ ((saved (redo e) <= max_history e)%Z
      /\ max_history (redo e) = max_history e).
Proof.
  intros M B. unfold saved in *. split; [|split].
  - destruct (save_cases e) as [->|(st & _ & _ & _ & _ & Hr & Hm & _ & Hu)];
      [split; [exact B|reflexivity]|].
    split; [|exact Hm]. rewrite Hr, Hu.
    destruct (Z.gtb_spec (Z.of_nat (length (undo_history e ++ [st])))
                         (max_history e)) as [G|G].
    + rewrite length_app in *. simpl in *.
      destruct (undo_history e ++ [st]) as [|a l] eqn:E.
      * simpl. lia.
      * apply (f_equal (@length _)) in E. rewrite length_app in E.
        simpl in E. simpl. lia.
    + simpl. lia.
  - destruct (undo_cases e) as [->|(l & p & c & Hu & Hu' & Hr' & _ & Hm & _)];
      [split; [exact B|reflexivity]|].
    split; [|exact Hm]. rewrite Hu', Hr'. rewrite Hu in B.
    rewrite !length_app in *. simpl in *. lia.
  - destruct (redo_cases e) as [[_ ->]|(r & s & Hr & Hu' & Hr' & _ & Hm & _)];
      [split; [exact B|reflexivity]|].
    split; [|exact Hm]. rewrite Hu', Hr'. rewrite Hr in B.
    rewrite !length_app in *. simpl in *. lia.
Qed.

(** X18.  Undo and redo are inverse on the histories.  With at least two
    saved states, [_undo] then [_redo] gives back both lists and leaves in
    the widget the state on top of the undo history; with a state to redo
    and a non-empty undo history, [_redo] then [_undo] gives back both
    lists as well. *)
Theorem undo_redo_round_trip (e : editor) :
  ((2 <= length (undo_history e))%nat ->
   undo_history (redo (undo e)) = undo_history e
   /\ redo_history (redo (undo e)) = redo_history e
   /\ exists s w, top (undo_history e) = Some s
                  /\ text_area (redo (undo e)) = write_state s w)
  /\ (redo_history e <> [] -> undo_history e <> [] ->
      undo_history (undo (redo e)) = undo_history e
      /\ redo_history (undo (redo e)) = redo_history e).
Proof.
  split.
  - intros L.
    destruct (undo_cases e) as [E|(l & p & c & Hu & Hu' & Hr' & Hw & _)].
    + exfalso. unfold _undo in E.
      destruct (Nat.ltb_spec (length (undo_history e)) 2) as [L'|_]; [lia|].
      destruct (pop (undo_history e)) as [[c u]|] eqn:P.
      * apply pop_some in P.
        destruct (top u);
          apply (f_equal redo_history) in E; simpl in E;
          apply (f_equal (@length _)) in E; rewrite length_app in E;
          simpl in E; lia.
      * apply pop_none in P. rewrite P in L. simpl in L. lia.
    + destruct (redo_cases (undo e))
        as [[N _]|(r & s & Hr & Hu2 & Hr2 & Hw2 & _)].
      * rewrite Hr' in N. destruct (redo_history e); discriminate N.
      * rewrite Hr' in Hr. apply app_inj_tail in Hr. destruct Hr as [<- <-].
        rewrite Hu2, Hr2, Hu', Hu, <- app_assoc.
        split; [reflexivity|]. split; [reflexivity|].
        exists c, (text_area (undo e)).
        split; [|exact Hw2].
        change (l ++ [p; c]) with (l ++ [p] ++ [c]).
        rewrite app_assoc. apply top_app.
  - intros R U.
    destruct (redo_cases e) as [[N _]|(r & s & Hr & Hu' & Hr' & _)];
      [contradiction|].
    destruct (undo_cases (redo e))
      as [E|(l & p & c & Hu2 & Hu3 & Hr3 & _)].
    + exfalso. unfold _undo in E. rewrite Hu' in E.
      destruct (Nat.ltb_spec (length (undo_history e ++ [s])) 2) as [L'|_].
      * rewrite length_app in L'. simpl in L'.
        destruct (undo_history e); [contradiction|simpl in L'; lia].
      * rewrite pop_app in E.
        destruct (top (undo_history e));
          apply (f_equal redo_history) in E; simpl in E;
          apply (f_equal (@length _)) in E; rewrite length_app in E;
          simpl in E; lia.
    + rewrite Hu' in Hu2.
      change (l ++ [p; c]) with (l ++ [p] ++ [c]) in Hu2.
      rewrite app_assoc in Hu2. apply app_inj_tail in Hu2.
      destruct Hu2 as [E1 E2]. subst c.
      rewrite Hu3, Hr3, Hr', <- E1, Hr. split; reflexivity.
Qed.

Hypothesis content_eqb_refl : forall c, content_eqb c c = true.
Hypothesis tags_eqb_refl : forall t, tags_eqb t t = true.

(** X19.  Saving twice is saving once: a second [_save_undo_state] with no
    edit in between finds the state it would save on top of the undo
    history and changes nothing (the comparisons of contents and of tags
    being reflexive, as [==] is on strings and dictionaries). *)
Theorem save_twice (e : editor) : save (save e) = save e.
Proof.
  destruct (save_cases e)
    as [E|(st & Hread & _ & _ & Hw & Hr & Hm & Hu0 & Hu)];
    [rewrite !E; reflexivity|].
  unfold _save_undo_state at 1. rewrite Hu0, Hw, Hread.
  destruct (Z.gtb_spec (Z.of_nat (length (undo_history e ++ [st])))
                       (max_history e)) as [G|G].
  - destruct (undo_history e) as [|a l] eqn:E.
    + simpl in Hu, G. rewrite Hu. simpl.
      destruct (Z.gtb_spec 1 (max_history (save e))) as [_|N]; [|lia].
      simpl. destruct (save e); simpl in *. subst. reflexivity.
    + simpl in Hu. rewrite Hu.
      unfold is_duplicate. rewrite top_app.
      rewrite content_eqb_refl, tags_eqb_refl. reflexivity.
  - rewrite Hu. unfold is_duplicate. rewrite top_app.
    rewrite content_eqb_refl, tags_eqb_refl. reflexivity.
Qed.

End HistoryFacts.

Lemma history_stays_bounded_witness :
  (History.saved
     (History._redo (fun st _ => st)
        (History._undo (fun st _ => st) two_states_editor)) <= 100)%Z.
Proof.
  pose proof (history_stays_bounded Nat.eqb Nat.eqb Some (fun st _ => st)
                two_states_editor) as H.
  destruct H as (_ & [Hu Hm] & _); [simpl; lia|vm_compute; discriminate|].
  pose proof (history_stays_bounded Nat.eqb Nat.eqb Some (fun st _ => st)
                (History._undo (fun st _ => st) two_states_editor)) as H.
  destruct H as (_ & _ & [Hr _]); [simpl; lia|exact Hu|].
  exact Hr.
Defined.

Lemma undo_redo_round_trip_witness :
  History.undo_history
    (History._redo (fun st _ => st)
       (History._undo (fun st _ => st) two_states_editor))
  = History.undo_history two_states_editor.
Proof.
  apply (undo_redo_round_trip (fun st _ => st) two_states_editor).
  simpl. lia.
Defined.

Lemma save_twice_witness :
  History._save_undo_state Nat.eqb Nat.eqb Some
    (History._save_undo_state Nat.eqb Nat.eqb Some two_states_editor)
  = History._save_undo_state Nat.eqb Nat.eqb Some two_states_editor.
Proof.
  apply (save_twice Nat.eqb Nat.eqb Some Nat.eqb_refl Nat.eqb_refl
           two_states_editor).
Defined.

Section WallAndBall.

Lemma not_climbing_on_ground p :
  on_wall_iff_climbing p -> state p <> CLIMB_UP -> state p <> CLIMB_DOWN ->
  on_wall p = None.
Proof.
  intros [H _] U D. destruct (on_wall p) as [w|] eqn:W; [|reflexivity].
  exfalso. destruct H as [S|S]; [discriminate|contradiction|contradiction].
Qed.

Ltac on_ground p I :=
  assert (on_wall p = None)
    by (apply (not_climbing_on_ground p I); congruence).

(** An equivalence between two statements that both fail. *)
Ltac both_false :=
  let A := fresh "A" in
  split; [intros A; exfalso; apply A; simpl; assumption
         |intros [A|A]; simpl in A; congruence].

Lemma tick_timers_wall dt p :
  on_wall_iff_climbing p -> on_wall_iff_climbing (tick_timers dt p).
Proof.
  intros I. destruct (tick_timers_frame dt p) as (_ & _ & Hs & Hw & _).
  unfold on_wall_iff_climbing. rewrite Hs, Hw. exact I.
Qed.

Lemma move_wall p : on_wall_iff_climbing p -> on_wall_iff_climbing (move p).
Proof.
  intros I. destruct (move_frame p) as (Hs & Hw & _).
  unfold on_wall_iff_climbing. rewrite Hs, Hw. exact I.
Qed.

Lemma chase_interrupt_wall balls p :
  on_wall_iff_climbing p -> on_wall_iff_climbing (chase_interrupt balls p).
Proof.
  intros I. unfold chase_interrupt.
  destruct (chase_guard balls p) eqn:G; [|exact I].
  apply chase_guard_true in G. destruct G as (_ & _ & _ & W).
  destruct (find_nearest_ball p balls) as [nb|]; [|exact I].
  destruct (Ball.visible nb); [|exact I].
  destruct (_ || _ || _); [|exact I].
  assert (ND : state p <> CLIMB_DOWN).
  { intros S. destruct I as [_ I]. apply I; [right; exact S|exact W]. }
  destruct (chase_ball_spec (Ball.x nb) (Ball.y nb)
              (set_target_ball_id (Some (Ball.unique_id nb)) p))
    as (_ & _ & Hrun & _ & Hw & _).
  destruct (Hrun W ND) as [Hs _].
  unfold on_wall_iff_climbing. rewrite Hs, Hw. simpl. rewrite W.
  split; [intros N; congruence|intros [S|S]; discriminate S].
Qed.

Lemma state_machine_wall dt rnd p q :
  on_wall_iff_climbing p -> state_machine dt rnd p = Some q ->
  on_wall_iff_climbing q.
Proof.
  intros I. unfold state_machine.
  destruct (state p) eqn:S.
  - on_ground p I.
    unfold _update_idle, _start_climbing, randint.
    destruct (_ >=? _)%Z; [|intros E; injection E as <-; exact I].
    destruct (_ && has_swipe p);
      [intros E; injection E as <-; unfold on_wall_iff_climbing; both_false|].
    destruct (_ && _).
    + destruct (Rle_dec _ _); [|discriminate].
      intros E; injection E as <-. unfold on_wall_iff_climbing.
      destruct (Rlt_dec (x p) (canvas_width p / 2)); simpl;
        (split; [intros _; left; reflexivity|intros _; discriminate]).
    + destruct (Rle_dec _ _); [|discriminate].
      intros E; injection E as <-. unfold on_wall_iff_climbing. both_false.
  - on_ground p I. intros E; injection E as <-. unfold _update_walk.
    destruct (Rlt_dec _ _); unfold on_wall_iff_climbing; simpl;
      [both_false|rewrite S; both_false].
  - on_ground p I. intros E; injection E as <-.
    destruct (_update_run_frame dt p) as (_ & _ & Hs & Hw & _).
    unfold on_wall_iff_climbing. rewrite Hs, Hw. exact I.
  - on_ground p I. intros E; injection E as <-. unfold _update_with_ball.
    simpl. destruct (_ >=? _)%Z; unfold on_wall_iff_climbing; simpl;
      [both_false|rewrite S; both_false].
  - assert (W : on_wall p <> None) by (apply I; left; exact S).
    intros E; injection E as <-. unfold _update_climb_up.
    destruct (_ || _).
    + destruct (Rlt_dec _ _); simpl;
        [|destruct (_ >=? _)%Z]; unfold on_wall_iff_climbing; simpl;
        rewrite ?S; (split; [intros _; auto|intros _; exact W]).
    + unfold on_wall_iff_climbing; simpl. exact I.
  - assert (W : on_wall p <> None) by (apply I; right; exact S).
    intros E; injection E as <-. unfold _update_climb_down.
    destruct (Rlt_dec _ _); unfold on_wall_iff_climbing; simpl.
    + split; [intros N; congruence|intros [A|A]; discriminate A].
    + exact I.
  - on_ground p I. intros E; injection E as <-. unfold _update_swipe.
    destruct (_ >=? _)%Z; [|exact I].
    unfold on_wall_iff_climbing. both_false.
Qed.

End WallAndBall.

(** X1.  [Pet.update] keeps [on_wall] and the state in step, whatever the
    height of the canvas: if the pet is on a wall exactly when it is in
    CLIMB_UP or CLIMB_DOWN before the call, the same holds after it. *)
Theorem update_keeps_on_wall_iff_climbing dt balls rnd p p' :
  on_wall_iff_climbing p -> update dt balls rnd p = Some p' ->
  on_wall_iff_climbing p'.
Proof.
  intros I U. destruct (update_some_move _ _ _ _ _ U) as (q & SM & ->).
  apply move_wall.
  eapply state_machine_wall; [|exact SM].
  apply chase_interrupt_wall. apply tick_timers_wall. exact I.
Qed.

(** A pet climbing the left wall of a canvas 600 pixels high. *)
Lemma update_keeps_on_wall_iff_climbing_witness :
  on_wall_iff_climbing climber
  /\ exists p', update 50 [thrown_ball] draws0 climber = Some p'
               /\ on_wall_iff_climbing p'.
Proof.
  assert (I : on_wall_iff_climbing climber).
  { unfold on_wall_iff_climbing. simpl.
    split; [intros _; left; reflexivity|intros _; discriminate]. }
  split; [exact I|].
  destruct (update 50 [thrown_ball] draws0 climber) as [p'|] eqn:U.
  - exists p'. split; [reflexivity|].
    exact (update_keeps_on_wall_iff_climbing 50 [thrown_ball] draws0
             climber p' I U).
  - exfalso. unfold update in U.
    destruct (state_machine _ _ _) eqn:SM; [discriminate|].
    unfold state_machine in SM.
    destruct (state _); discriminate SM.
Defined.

Section HoldingFacts.











End HoldingFacts.



Section GroundedFacts.










End GroundedFacts.



Section SpeedFacts.

Lemma Rabs_le_between a b : Rabs a <= b -> - b <= a <= b.
Proof. unfold Rabs. destruct (Rcase_abs a); lra. Qed.

Lemma limited_intro p :
  max_speed p = 12 -> acceleration p = 0.35 -> friction p = 0.88 ->
  -12 <= vx p <= 12 -> -12 <= vy p <= 12 -> limited p.
Proof.
  intros M A F X Y. unfold limited, pet_constants, speed_bounded.
  rewrite M. repeat split; try assumption; apply Rabs_le; assumption.
Qed.

Lemma limited_elim p :
  limited p ->
  max_speed p = 12 /\ acceleration p = 0.35 /\ friction p = 0.88
  /\ -12 <= vx p <= 12 /\ -12 <= vy p <= 12.
Proof.
  intros [(M & A & F) [X Y]]. rewrite M in X, Y.
  apply Rabs_le_between in X. apply Rabs_le_between in Y. tauto.
Qed.

Ltac limited_elim L :=
  let M := fresh "M" in let A := fresh "A" in let F := fresh "F" in
  let X := fresh "X" in let Y := fresh "Y" in
  destruct (limited_elim _ L) as (M & A & F & X & Y).

Ltac limited_same :=
  apply limited_intro; simpl; try assumption; try lra.

Lemma tick_timers_limited dt p : limited p -> limited (tick_timers dt p).
Proof.
  intros L. limited_elim L. unfold tick_timers. simpl.
  destruct (_ >=? _)%Z; limited_same.
Qed.

Lemma chase_interrupt_limited balls p :
  limited p -> limited (chase_interrupt balls p).
Proof.
  intros L. unfold chase_interrupt.
  destruct (chase_guard balls p); [|exact L].
  destruct (find_nearest_ball p balls) as [nb|]; [|exact L].
  destruct (Ball.visible nb); [|exact L].
  destruct (_ || _ || _); [|exact L].
  limited_elim L. unfold chase_ball. simpl.
  destruct (on_wall p); simpl;
    [|destruct (state_eq_dec _ _)]; limited_same.
Qed.

Lemma direction_sign (dx : R) :
  IZR (if Rgt_dec dx 0 then 1 else -1) = 1
  \/ IZR (if Rgt_dec dx 0 then 1 else -1) = -1.
Proof. destruct (Rgt_dec dx 0); [left|right]; reflexivity. Qed.

Lemma Rmin_between a b : 0 <= a -> 0 <= b -> 0 <= Rmin a b <= b.
Proof.
  intros Ha Hb. split; [apply Rmin_glb; assumption|apply Rmin_r].
Qed.

Lemma state_machine_limited dt rnd p q :
  limited p -> state_machine dt rnd p = Some q -> limited q.
Proof.
  intros L. limited_elim L. unfold state_machine.
  destruct (state p) eqn:S.
  - unfold _update_idle, _start_climbing, randint.
    destruct (_ >=? _)%Z; [|intros E; injection E as <-; exact L].
    destruct (_ && has_swipe p);
      [intros E; injection E as <-; limited_same|].
    destruct (_ && _);
      (destruct (Rle_dec _ _); [|discriminate]);
      intros E; injection E as <-;
      try destruct (Rlt_dec (x p) (canvas_width p / 2)); limited_same.
  - intros E; injection E as <-. unfold _update_walk.
    destruct (Rlt_dec _ _); [limited_same|].
    apply limited_intro; simpl; try assumption.
    rewrite M, A.
    pose proof (Rmin_between (Rabs (target_x p - x p) * 0.1) (12 * 0.7)) as B.
    assert (0 <= Rabs (target_x p - x p)) by apply Rabs_pos.
    destruct B as [B1 B2]; [lra|lra|].
    destruct (direction_sign (target_x p - x p)) as [D|D]; rewrite D; lra.
  - intros E; injection E as <-. unfold _update_run.
    destruct (Rlt_dec _ _); [limited_same|].
    apply limited_intro; simpl; try assumption.
    rewrite M, A.
    destruct (direction_sign (target_x p - x p)) as [D|D]; rewrite D; lra.
  - intros E; injection E as <-. unfold _update_with_ball. simpl.
    destruct (_ >=? _)%Z; limited_same.
  - intros E; injection E as <-. unfold _update_climb_up.
    destruct (_ || _).
    + destruct (Rlt_dec _ _); [|simpl; destruct (_ >=? _)%Z]; limited_same.
    + apply limited_intro; simpl; try assumption.
      rewrite M, A.
      pose proof (Rmin_between (Rabs (climb_target_y p - y p) * 0.08)
                               (12 * 0.6)) as B.
      assert (0 <= Rabs (climb_target_y p - y p)) by apply Rabs_pos.
      destruct B as [B1 B2]; [lra|lra|]. lra.
  - intros E; injection E as <-. unfold _update_climb_down.
    destruct (Rlt_dec _ _) as [C|C]; [limited_same|].
    apply limited_intro; simpl; try assumption.
    rewrite M, A.
    pose proof (Rmin_between ((ground_y p - y p) * 0.1) (12 * 0.8)) as B.
    destruct B as [B1 B2]; [lra|lra|]. lra.
  - intros E; injection E as <-. unfold _update_swipe.
    destruct (_ >=? _)%Z; limited_same.
Qed.

Lemma move_limited p : limited p -> limited (move p).
Proof.
  intros L. limited_elim L. unfold move, _clamp_position.
  destruct (on_wall p) eqn:W; simpl; rewrite W; simpl;
    apply limited_intro; simpl; try assumption; rewrite F; lra.
Qed.

End SpeedFacts.

(** X4.  The code never clamps the velocity of a pet, yet [Pet.update]
    keeps both components within [max_speed]: with the constants of
    [Pet.__init__] (max_speed 12, acceleration 0.35, friction 0.88), a pet
    whose velocity components are at most [max_speed] in absolute value
    before the call has the same constants and the same bound after it. *)
Theorem update_keeps_speed_limit dt balls rnd p p' :
  pet_constants p -> speed_bounded p ->
  update dt balls rnd p = Some p' ->
  pet_constants p' /\ speed_bounded p'.
Proof.
  intros C B U. destruct (update_some_move _ _ _ _ _ U) as (q & SM & ->).
  apply move_limited.
  eapply state_machine_limited; [|exact SM].
  apply chase_interrupt_limited, tick_timers_limited. split; assumption.
Qed.

(** A pet running after a ball, at full speed. *)
Lemma update_keeps_speed_limit_witness :
  pet_constants (set_vx 12 pet_running)
  /\ speed_bounded (set_vx 12 pet_running)
  /\ exists p', update 50 [thrown_ball] draws0 (set_vx 12 pet_running) = Some p'
               /\ pet_constants p' /\ speed_bounded p'.
Proof.
  assert (C : pet_constants (set_vx 12 pet_running)).
  { unfold pet_constants. simpl. repeat split; reflexivity. }
  assert (B : speed_bounded (set_vx 12 pet_running)).
  { unfold speed_bounded. simpl. split; apply Rabs_le; lra. }
  split; [exact C|]. split; [exact B|].
  destruct (update 50 [thrown_ball] draws0 (set_vx 12 pet_running))
    as [p'|] eqn:U.
  - exists p'. split; [reflexivity|].
    exact (update_keeps_speed_limit 50 [thrown_ball] draws0
             (set_vx 12 pet_running) p' C B U).
  - exfalso.
    destruct (update_returns 50 [thrown_ball] draws0 (set_vx 12 pet_running))
      as [p' E]; [simpl; lra|].
    rewrite E in U. discriminate U.
Defined.

(** ** Ball identifiers *)



(** ** Ties in the arbitration *)

(** X6.  The scan of [_animate] replaces its best pet only on a strictly
    smaller distance, so the pets are served in list order: a pet never
    wins a ball against a candidate that stands earlier in [self.pets] and
    is at least as close to the ball. *)
Theorem earlier_pet_wins_ties ps cv ball i j pi pj :
  Ball.visible ball = true ->
  (i < j)%nat ->
  nth_error ps i = Some pi -> nth_error ps j = Some pj ->
  candidate (Ball.update cv ball) pi ->
  state pj <> WITH_BALL ->
  pet_distance pi (Ball.update cv ball) <= pet_distance pj (Ball.update cv ball) ->
  closest_pet (Ball.update cv ball) ps <> Some j
  /\ exists pj',
       nth_error (fst (fst (fst (ball_step ps cv ball)))) j = Some pj'
       /\ state pj' <> WITH_BALL.
Proof.
  intros V Hij Hi Hj Ci Sj D.
  assert (N : closest_pet (Ball.update cv ball) ps <> Some j).
  { intros C. apply closest_pet_some in C.
    destruct C as (pw & Hw & _ & _ & _ & Hfirst).
    rewrite Hj in Hw. injection Hw as <-.
    pose proof (Hfirst i pi Hij Hi Ci). lra. }
  split; [exact N|].
  destruct (closest_pet (Ball.update cv ball) ps) as [w|] eqn:C.
  - rewrite (ball_step_caught ps cv ball w V C). simpl.
    exists (clear_target (Ball.update cv ball) pj). split.
    + rewrite nth_error_map, nth_error_update_nth.
      destruct (Nat.eqb_spec j w) as [->|_]; [congruence|].
      rewrite Hj. reflexivity.
    + destruct (state_eq_dec (state pj) RUN) as [R|R].
      * unfold clear_target.
        destruct (target_ball_id pj) as [t|]; [|exact Sj].
        destruct (t =? _)%Z; [|exact Sj]. simpl.
        destruct (state_eq_dec (state pj) RUN); [simpl; discriminate|exact Sj].
      * rewrite (clear_target_state _ _ R). exact Sj.
  - rewrite (ball_step_missed ps cv ball V C). simpl.
    exists pj. split; assumption.
Qed.

(** Two pets at the same place, both running after the same ball at rest:
    the second one does not get it. *)
Lemma earlier_pet_wins_ties_witness :
  closest_pet (Ball.update canvas800 (ball_at 0 300))
              [runner 0 310; runner 0 310] <> Some 1%nat
  /\ exists pj',
       nth_error (fst (fst (fst (ball_step [runner 0 310; runner 0 310]
                                           canvas800 (ball_at 0 300))))) 1
       = Some pj'
       /\ state pj' <> WITH_BALL.
Proof.
  assert (U := update_ball_at canvas800 eq_refl 0 300 ltac:(lra)).
  apply (earlier_pet_wins_ties [runner 0 310; runner 0 310] canvas800
           (ball_at 0 300) 0 1 (runner 0 310) (runner 0 310)).
  - reflexivity.
  - lia.
  - reflexivity.
  - reflexivity.
  - rewrite U. split; [left; reflexivity|]. split; [reflexivity|].
    intros [A _]; discriminate A.
  - discriminate.
  - apply Rle_refl.
Defined.

(** ** Chases across a whole update *)

Lemma chase_interrupt_run balls p :
  state p = RUN -> state (chase_interrupt balls p) = RUN.
Proof.
  intros S. unfold chase_interrupt.
  destruct (chase_guard balls p) eqn:G; [|exact S].
  apply chase_guard_true in G. destruct G as (_ & _ & _ & W).
  destruct (find_nearest_ball p balls) as [nb|]; [|exact S].
  destruct (Ball.visible nb); [|exact S].
  destruct (_ || _ || _); [|exact S].
  destruct (chase_ball_spec (Ball.x nb) (Ball.y nb)
              (set_target_ball_id (Some (Ball.unique_id nb)) p))
    as (_ & _ & Hrun & _).
  apply Hrun; simpl; [exact W|congruence].
Qed.

(** X7.  [Pet.update] never ends a chase: a pet in RUN is still in RUN
    after the call, whatever the balls, the timers and the random draws,
    and the call does not raise.  Only the coordinator (a catch, or the
    target cleared when another pet catches the ball) takes a pet out of
    RUN. *)
Theorem update_stays_in_run dt balls rnd p :
  state p = RUN ->
  exists p', update dt balls rnd p = Some p' /\ state p' = RUN.
Proof.
  intros S.
  assert (S1 : state (chase_interrupt balls (tick_timers dt p)) = RUN).
  { apply chase_interrupt_run.
    destruct (tick_timers_frame dt p) as (_ & _ & Hs & _). rewrite Hs. exact S. }
  unfold update, state_machine. rewrite S1.
  eexists. split; [reflexivity|].
  destruct (move_frame (_update_run dt (chase_interrupt balls (tick_timers dt p))))
    as (Ms & _).
  destruct (_update_run_frame dt (chase_interrupt balls (tick_timers dt p)))
    as (_ & _ & Rs & _).
  rewrite Ms, Rs. exact S1.
Qed.

(** A running pet with no ball left to run after. *)
Lemma update_stays_in_run_witness :
  exists p', update 50 [] draws0 pet_running = Some p' /\ state p' = RUN.
Proof.
  apply (update_stays_in_run 50 [] draws0 pet_running). reflexivity.
Defined.

(** X8.  A pet on the ground in IDLE or WALK that holds no ball reacts to a
    visible ball within one call of [Pet.update]: whatever its timers and
    the random draws, the call returns a pet in RUN whose target is the
    nearest visible ball ([find_nearest_ball]), at the position the ball has
    in the list passed to the call. *)
Theorem update_starts_chase dt balls rnd p nb :
  state p = IDLE \/ state p = WALK ->
  has_ball p = false -> on_wall p = None ->
  find_nearest_ball p balls = Some nb ->
  exists p', update dt balls rnd p = Some p'
             /\ state p' = RUN
             /\ target_ball_id p' = Some (Ball.unique_id nb)
             /\ target_x p' = Ball.x nb /\ target_y p' = Ball.y nb.
Proof.
  intros S B W F.
  destruct (tick_timers_frame dt p)
    as (Hx & Hy & Hs & Hw & Hb & _).
  set (q := tick_timers dt p) in *.
  assert (Fq : find_nearest_ball q balls = Some nb)
    by (rewrite (find_nearest_ball_ext p q balls Hx Hy); exact F).
  assert (V : Ball.visible nb = true).
  { apply find_nearest_ball_some in Fq. apply Fq. }
  assert (G : chase_guard balls q = true).
  { apply chase_guard_true. rewrite Hb, Hs, Hw.
    repeat split; try assumption.
    - intros E. subst balls. discriminate F.
    - destruct S as [S|S]; rewrite S; discriminate. }
  assert (IW : in_states (state q) [IDLE; WALK] = true).
  { rewrite Hs. destruct S as [S|S]; rewrite S; reflexivity. }
  assert (CI : chase_interrupt balls q
               = chase_ball (Ball.x nb) (Ball.y nb)
                   (set_target_ball_id (Some (Ball.unique_id nb)) q)).
  { unfold chase_interrupt. rewrite G, Fq, V, IW. reflexivity. }
  destruct (chase_ball_spec (Ball.x nb) (Ball.y nb)
              (set_target_ball_id (Some (Ball.unique_id nb)) q))
    as (Tx & Ty & Hrun & _ & _ & _ & Tid).
  destruct Hrun as [Sr _].
  { simpl. rewrite Hw. exact W. }
  { simpl. rewrite Hs. destruct S as [S|S]; rewrite S; discriminate. }
  unfold update. fold q. rewrite CI. unfold state_machine. rewrite Sr.
  eexists. split; [reflexivity|].
  match goal with |- context [move (_update_run dt ?c)] =>
    destruct (move_frame (_update_run dt c))
      as (Ms & _ & _ & Mid & Mtx & Mty & _);
    destruct (_update_run_frame dt c) as (Rtx & Rty & Rs & _ & _ & Rid)
  end.
  rewrite Ms, Mid, Mtx, Mty, Rs, Rid, Rtx, Rty, Sr, Tid, Tx, Ty.
  repeat split.
Qed.

(** An idle pet and a ball just thrown. *)
Lemma update_starts_chase_witness :
  exists p', update 50 [thrown_ball] draws0 pet800 = Some p'
             /\ state p' = RUN
             /\ target_ball_id p' = Some 0%Z
             /\ target_x p' = Ball.x thrown_ball
             /\ target_y p' = Ball.y thrown_ball.
Proof.
  apply (update_starts_chase 50 [thrown_ball] draws0 pet800 thrown_ball).
  - left. reflexivity.
  - reflexivity.
  - reflexivity.
  - reflexivity.
Defined.

(** ** Balls between catches *)

(** X9.  [Ball.update] never speeds a ball up sideways: with a friction
    coefficient between 0 and 1 (0.95 in [Ball.__init__]), the absolute
    horizontal velocity after the call is at most what it was before. *)
Theorem update_never_accelerates cv b :
  0 <= Ball.friction b <= 1 ->
  Rabs (Ball.vx (Ball.update cv b)) <= Rabs (Ball.vx b).
Proof.
  intros F. unfold Ball.update.
  destruct (Ball.visible b); simpl; [|apply Rle_refl].
  assert (W : Rabs (Ball.vx (Ball.bounce_walls cv (Ball.integrate b)))
              <= Rabs (Ball.vx b)
              /\ Ball.friction (Ball.bounce_walls cv (Ball.integrate b))
                 = Ball.friction b).
  { unfold Ball.bounce_walls.
    pose proof (Rabs_pos (Ball.vx b)) as P.
    destruct (winfo_width cv) as [w|]; [|split; [apply Rle_refl|reflexivity]].
    destruct (Rgt_dec w 50); [|split; [apply Rle_refl|reflexivity]].
    destruct (Rle_dec _ _); [|destruct (Rge_dec _ _)]; simpl;
      (split; [|reflexivity]); try apply Rle_refl.
    - rewrite Rabs_mult, Rabs_Rabsolu, (Rabs_right 0.8) by lra. lra.
    - rewrite Rabs_mult, Rabs_Ropp, Rabs_Rabsolu, (Rabs_right 0.8) by lra. lra. }
  destruct W as [W Fr].
  set (m := Ball.bounce_walls cv (Ball.integrate b)) in *.
  unfold Ball.bounce_ground.
  destruct (Rge_dec _ _); simpl; [|exact W].
  rewrite Rabs_mult, Fr, (Rabs_right (Ball.friction b)) by lra.
  pose proof (Rabs_pos (Ball.vx m)). nra.
Qed.

Lemma update_never_accelerates_witness :
  Rabs (Ball.vx (Ball.update canvas800 thrown_ball))
  <= Rabs (Ball.vx thrown_ball).
Proof.
  apply (update_never_accelerates canvas800 thrown_ball). simpl. lra.
Defined.

(** X10.  A ball lying on the ground stays there: for a visible ball with
    [y = ground_y - radius] and [vy = 0], whose gravity and bounce
    coefficients are non-negative with a product below 1 (0.8 and 0.6 in
    [Ball.__init__]), [Ball.update] returns a ball at the same height, with
    [vy = 0] again, still visible. *)
Theorem update_keeps_ball_at_rest cv b :
  Ball.visible b = true ->
  Ball.y b = Ball.ground_y b - Ball.radius b -> Ball.vy b = 0 ->
  0 <= Ball.gravity b -> 0 <= Ball.bounce b ->
  Ball.gravity b * Ball.bounce b < 1 ->
  Ball.y (Ball.update cv b) = Ball.y b
  /\ Ball.vy (Ball.update cv b) = 0
  /\ Ball.visible (Ball.update cv b) = true.
Proof.
  intros V Y Vy G Bo GB. unfold Ball.update. rewrite V. simpl.
  destruct (bounce_walls_frame cv (Ball.integrate b))
    as (My & Mvy & Mv & _ & Mg & Mr & _ & Mb & _).
  set (m := Ball.bounce_walls cv (Ball.integrate b)) in *.
  simpl in My, Mvy, Mv, Mg, Mr, Mb.
  unfold Ball.bounce_ground.
  destruct (Rge_dec (Ball.y m) (Ball.ground_y m - Ball.radius m)) as [_|N].
  - simpl. rewrite Mg, Mr, Mvy, Mb, Mv, Vy, Y.
    split; [reflexivity|]. split; [|exact V].
    destruct (Rlt_dec _ 1) as [_|N]; [reflexivity|].
    exfalso. apply N. apply Rabs_def1; nra.
  - exfalso. apply N. rewrite My, Mg, Mr, Vy, Y. lra.
Qed.

Lemma update_keeps_ball_at_rest_witness :
  Ball.y (Ball.update canvas800 (ball_at 0 300)) = Ball.y (ball_at 0 300)
  /\ Ball.vy (Ball.update canvas800 (ball_at 0 300)) = 0
  /\ Ball.visible (Ball.update canvas800 (ball_at 0 300)) = true.
Proof.
  apply (update_keeps_ball_at_rest canvas800 (ball_at 0 300));
    simpl; try reflexivity; lra.
Defined.
